(** * arclib: the worker-thread pool and the chunked parallel-for

    A shallow embedding of [include/arclib/thread.h]: the class
    [arcl::thread_pool] (a FIFO job queue served by a fixed array of worker
    threads) and the free function [arcl::run_in_parallel] built on it.

    Every member of the pool that is shared between threads is only touched
    while [_mtx] is held, so the critical sections of the source are the
    atomic steps of the model: a thread takes one step at a time and the
    scheduler picks which thread moves. *)

From stdpp Require Import base list numbers.
From Stdlib Require Import ZArith Lia.

Local Open Scope Z_scope.

(** ** Fixed-width integers ([int.h]) *)

(** [uint32] and [uint64] values are integers in [0, 2^32) and [0, 2^64);
    arithmetic on them wraps around. *)
Definition UINT32_MOD : Z := 4294967296.
Definition UINT64_MOD : Z := 18446744073709551616.
Definition PTRDIFF_MAX : Z := 9223372036854775807.

Definition wrap32 (z : Z) : Z := z mod UINT32_MOD.
Definition wrap64 (z : Z) : Z := z mod UINT64_MOD.

Definition is_uint32 (z : Z) : Prop := 0 <= z < UINT32_MOD.
Definition is_uint64 (z : Z) : Prop := 0 <= z < UINT64_MOD.

(** ** Outcomes of a step *)

(** What can go wrong in the source: a failed [assert], a member call through
    the null [_workers] pointer, an index past the worker array, and a
    division whose divisor is zero. *)
Inductive fault : Type :=
  | AssertionFailed
  | NullDereference
  | OutOfBounds
  | DivisionByZero.

(** A step either completes, cannot be taken now (the thread is blocked on a
    condition variable or a [join], or the call is not allowed), or stops the
    process. *)
Inductive outcome (A : Type) : Type :=
  | Ok (a : A)
  | Blocked
  | Fault (f : fault).

Arguments Ok {A} a.
Arguments Blocked {A}.
Arguments Fault {A} f.

Definition bind {A B : Type} (o : outcome A) (k : A -> outcome B) : outcome B :=
  match o with
  | Ok a => k a
  | Blocked => Blocked
  | Fault f => Fault f
  end.

(** ** The thread pool *)

Section thread_pool.

(** A job is the closure stored in the queue, [std::function<void()>]. *)
Context {Job : Type}.

(** Where a worker thread stands in [work_loop]: at the wait on
    [_cv_workers] (line 188), running a job it has dequeued with the lock
    released (line 200), or past the [break] (line 206). *)
Inductive worker : Type :=
  | Waiting
  | Executing (job : Job)
  | Exited.

(** The private members of the class. [_workers] is [None] for [nullptr];
    the front of [_job_queue] is the head of the list. The mutex and the two
    condition variables have no state of their own in this model. *)
Record thread_pool : Type := ThreadPool {
  _num_workers : Z;
  _num_jobs : Z;
  _workers : option (list worker);
  _job_queue : list Job;
  _running : bool
}.

(** Default constructor (line 49). *)
Definition thread_pool_ctor : thread_pool :=
  ThreadPool 0 0 None [] false.

(** [start] (lines 73-83): allocate the array and spin off the workers,
    each at the top of [work_loop]. *)
Definition start (num_workers : Z) (p : thread_pool) : thread_pool :=
  ThreadPool num_workers (_num_jobs p)
             (Some (replicate (Z.to_nat num_workers) Waiting))
             (_job_queue p) true.

(** [enqueue_job] (lines 126-130): push to the back, count the job. *)
Definition enqueue_job (job : Job) (p : thread_pool) : thread_pool :=
  ThreadPool (_num_workers p) (wrap32 (_num_jobs p + 1)) (_workers p)
             (_job_queue p ++ [job]) (_running p).

(** [wait] (lines 138-141) returns when its predicate holds. *)
Definition wait (p : thread_pool) : outcome thread_pool :=
  if _num_jobs p =? 0 then Ok p else Blocked.

(** [num_workers] (lines 151-153). *)
Definition num_workers (p : thread_pool) : Z := _num_workers p.

(** [terminate], first block (lines 98-101): clear the running flag. *)
Definition terminate_flag (p : thread_pool) : thread_pool :=
  ThreadPool (_num_workers p) (_num_jobs p) (_workers p) (_job_queue p) false.

(** [_workers[i].join()]: through a null pointer it is a fault; on a live
    array it returns once thread [i] has left [work_loop]. *)
Definition join (ws : option (list worker)) (i : nat) : outcome unit :=
  match ws with
  | None => Fault NullDereference
  | Some l =>
      match l !! i with
      | Some Exited => Ok tt
      | Some _ => Blocked
      | None => Fault OutOfBounds
      end
  end.

(** The loop [for (uint32 i = 0; i < _num_workers; i++)] of line 105, with
    [count] iterations left. *)
Fixpoint join_loop (ws : option (list worker)) (i count : nat) : outcome unit :=
  match count with
  | O => Ok tt
  | S count' => bind (join ws i) (fun _ => join_loop ws (S i) count')
  end.

(** [terminate], rest (lines 104-109): join every worker, then free the
    array and null the pointer. [_num_workers] is left as it is. *)
Definition terminate_join (p : thread_pool) : outcome thread_pool :=
  bind (join_loop (_workers p) 0 (Z.to_nat (_num_workers p))) (fun _ =>
    Ok (ThreadPool (_num_workers p) (_num_jobs p) None (_job_queue p)
                   (_running p))).

(** The predicate the workers wait on (line 189). *)
Definition wake (p : thread_pool) : bool :=
  negb (_running p) || negb (_num_jobs p =? 0).

Definition set_worker (i : nat) (w : worker) (p : thread_pool)
    (ws : list worker) (jobs : list Job) (n : Z) : thread_pool :=
  ThreadPool (_num_workers p) n (Some (<[i := w]> ws)) jobs (_running p).

(** One step of worker [i] in [work_loop] (lines 184-208). From the wait it
    passes the predicate and then either takes the job at the front of the
    queue, trips the assertion of line 194, or leaves the loop. From a
    running job it finishes the job, takes the lock again and decrements
    the counter. The second component is the job that was run to its end
    in this step, if any. *)
Definition work_loop (i : nat) (p : thread_pool)
    : outcome (thread_pool * option Job) :=
  match _workers p with
  | None => Blocked
  | Some ws =>
      match ws !! i with
      | None => Blocked
      | Some Exited => Blocked
      | Some Waiting =>
          if wake p then
            if _running p then
              match _job_queue p with
              | [] => Fault AssertionFailed
              | job :: rest =>
                  Ok (set_worker i (Executing job) p ws rest (_num_jobs p), None)
              end
            else
              Ok (set_worker i Exited p ws (_job_queue p) (_num_jobs p), None)
          else Blocked
      | Some (Executing job) =>
          Ok (set_worker i Waiting p ws (_job_queue p)
                         (wrap32 (_num_jobs p - 1)), Some job)
      end
  end.

(** *** The process: the pool, its threads and what has been run *)

(** Besides the pool the model keeps two records that the source does not
    store: the jobs that have run to their end, in the order they ended,
    and whether [start] has been called (it may be called once). *)
Record process : Type := Process {
  pool : thread_pool;
  executed : list Job;
  started : bool
}.

Definition process_init : process := Process thread_pool_ctor [] false.

(** The steps a scheduler can choose from. The caller-side steps are the
    public member functions; [terminate] is two steps because other threads
    run between its critical section and its joins. *)
Inductive label : Type :=
  | L_start (num_workers : Z)
  | L_enqueue_job (job : Job)
  | L_wait
  | L_terminate_flag
  | L_terminate_join
  | L_work_loop (i : nat).

Definition with_pool (s : process) (p : thread_pool) : process :=
  Process p (executed s) (started s).

Definition step (l : label) (s : process) : outcome process :=
  match l with
  | L_start n =>
      if started s then Blocked
      else if (0 <=? n) && (n <? UINT32_MOD)
           then Ok (Process (start n (pool s)) (executed s) true)
           else Blocked
  | L_enqueue_job job => Ok (with_pool s (enqueue_job job (pool s)))
  | L_wait => bind (wait (pool s)) (fun p => Ok (with_pool s p))
  | L_terminate_flag => Ok (with_pool s (terminate_flag (pool s)))
  | L_terminate_join =>
      (* program order: the joins come after the flag has been cleared *)
      if _running (pool s) then Blocked
      else bind (terminate_join (pool s)) (fun p => Ok (with_pool s p))
  | L_work_loop i =>
      bind (work_loop i (pool s)) (fun r =>
        Ok (Process (fst r)
                    (match snd r with
                     | Some job => executed s ++ [job]
                     | None => executed s
                     end)
                    (started s)))
  end.

(** A schedule is a list of steps; it stops at the first fault. *)
Fixpoint run (ls : list label) (s : process) : outcome process :=
  match ls with
  | [] => Ok s
  | l :: ls' => bind (step l s) (run ls')
  end.

Definition reachable (s : process) : Prop :=
  exists ls, run ls process_init = Ok s.

(** [terminate()], [finish()] and the destructor as caller-side steps. *)
Definition terminate : list label := [L_terminate_flag; L_terminate_join].
Definition finish : list label := L_wait :: terminate.
Definition destructor : list label := terminate.

(** The jobs that workers are running, and how many there are. *)
Definition running_job (w : worker) : list Job :=
  match w with
  | Executing job => [job]
  | _ => []
  end.

Definition jobs_in_execution (p : thread_pool) : list Job :=
  match _workers p with
  | None => []
  | Some ws => concat (map running_job ws)
  end.

Definition mid_execution (p : thread_pool) : Z :=
  Z.of_nat (length (jobs_in_execution p)).

Definition queue_length (p : thread_pool) : Z :=
  Z.of_nat (length (_job_queue p)).

(** Jobs that have been enqueued and have not yet run to their end. *)
Definition outstanding (p : thread_pool) : Z :=
  queue_length p + mid_execution p.

(** *** Predicates of the statements below *)

(** What holds of the pool in every state a schedule can lead to. *)
Record pool_inv (s : process) : Prop := PoolInv {
  inv_num_workers : is_uint32 (_num_workers (pool s));
  inv_workers : forall ws,
    _workers (pool s) = Some ws ->
    length ws = Z.to_nat (_num_workers (pool s));
  inv_num_jobs : _num_jobs (pool s) = wrap32 (outstanding (pool s));
  inv_not_started :
    started s = false ->
    _workers (pool s) = None /\ _running (pool s) = false /\
    _num_workers (pool s) = 0 /\ executed s = [];
  inv_running : _running (pool s) = true -> started s = true;
  inv_executed : executed s <> [] -> _num_workers (pool s) <> 0
}.

(** The jobs a schedule hands to the pool, in order. *)
Definition enqueued_by (ls : list label) : list Job :=
  concat (map (fun l => match l with L_enqueue_job job => [job] | _ => [] end)
              ls).

(** Every job the pool holds or has held: run to its end, in execution, or
    in the queue. *)
Definition all_jobs (s : process) : list Job :=
  executed s ++ jobs_in_execution (pool s) ++ _job_queue (pool s).

(** The steps that can follow the critical section of [terminate()]: the
    workers move, a caller of [wait()] tries to return, and the joins
    complete. Nothing is enqueued and the pool is not started again. *)
Definition drain_label (l : label) : Prop :=
  match l with
  | L_work_loop _ | L_wait | L_terminate_flag | L_terminate_join => True
  | L_start _ | L_enqueue_job _ => False
  end.

(** [s'] comes after a [terminate()] called in [s]: the pool is draining,
    the queue is as it was (no queued job has been taken), the only jobs
    that ended since are jobs that were already running in [s], the counter
    is not zero and a caller of [wait()] cannot return. *)
Definition discarded (s s' : process) : Prop :=
  _running (pool s') = false /\
  _job_queue (pool s') = _job_queue (pool s) /\
  (exists done,
     executed s' = executed s ++ done /\
     done ++ jobs_in_execution (pool s') ≡ₚ jobs_in_execution (pool s)) /\
  _num_jobs (pool s') <> 0 /\
  step L_wait s' = Blocked.

End thread_pool.

Arguments worker : clear implicits.
Arguments thread_pool : clear implicits.
Arguments process : clear implicits.
Arguments label : clear implicits.

(** ** Shutting the workers down *)

Section shutdown.

Context {Job : Type}.

(** The steps worker [i] takes to leave [work_loop] once the flag is
    cleared: a running job is brought to its end first, then the worker
    passes its wait and breaks out of the loop. *)
Definition exit_steps (i : nat) (w : worker Job) : list (label Job) :=
  match w with
  | Waiting => [L_work_loop i]
  | Executing _ => [L_work_loop i; L_work_loop i]
  | Exited => []
  end.

(** The workers of an array leave one after the other, the first of them
    being thread [i]. *)
Fixpoint exit_schedule (i : nat) (ws : list (worker Job)) : list (label Job) :=
  match ws with
  | [] => []
  | w :: ws' => exit_steps i w ++ exit_schedule (S i) ws'
  end.

Definition pool_exit_schedule (p : thread_pool Job) : list (label Job) :=
  match _workers p with
  | Some ws => exit_schedule 0 ws
  | None => []
  end.

End shutdown.

(** ** The chunked parallel-for *)

(** An iterator of the range is its position in the sequence, so [begin + k]
    is the position of the element of index [k]. A chunk job is the closure
    [[it, it_end, func]] of line 267; [func] is the same in all of them. *)
Record chunk : Type := Chunk {
  it : Z;
  it_end : Z
}.

(** What the calling thread does, in order: apply [func] to the element at a
    position, hand a job to the pool, block in [pool.wait()]. *)
Inductive event : Type :=
  | Invoke (position : Z)
  | Enqueue (job : chunk)
  | Wait.

(** How the call ends: it returns, it stops the process, or its loop is
    still running when the fuel of the model is spent. *)
Inductive exit : Type :=
  | Returned
  | Aborted (f : fault)
  | OutOfFuel.

(** [while (it != it_end) { std::invoke(func, *it++); }] (lines 256 and 268):
    the positions [func] is applied to, in order. *)
Fixpoint invoke_loop (fuel : nat) (it it_end : Z) : option (list Z) :=
  if it =? it_end then Some []
  else match fuel with
       | O => None
       | S fuel' => cons it <$> invoke_loop fuel' (it + 1) it_end
       end.

(** The body of a chunk job, and the positions it applies [func] to. *)
Definition chunk_body (job : chunk) : option (list Z) :=
  invoke_loop (Z.to_nat (it_end job - it job)) (it job) (it_end job).

Definition chunk_positions (job : chunk) : list Z :=
  default [] (chunk_body job).

(** The loop of lines 263-274: one job per iteration. *)
Fixpoint split_loop (fuel : nat) (begin range_size chunk_size : Z)
    (idx_begin idx_end : Z) : option (list chunk) :=
  if idx_begin =? range_size then Some []
  else match fuel with
       | O => None
       | S fuel' =>
           cons (Chunk (begin + idx_begin) (begin + idx_end)) <$>
             split_loop fuel' begin range_size chunk_size idx_end
                        (Z.min (wrap64 (idx_end + chunk_size)) range_size)
       end.

(** Lines 246-252: the quotient, raised to the minimum chunk size. (The
    source also reassigns [num_chunks] there and never reads it again.) *)
Definition clamped_chunk_size (range_size num_chunks min_chunk_size : Z) : Z :=
  let chunk_size := range_size / num_chunks in
  if chunk_size <? min_chunk_size then min_chunk_size else chunk_size.

(** [run_in_parallel] (lines 238-278), with assertions compiled in. The
    division of line 246 is unsigned and has no guard: it stops the process
    when [num_chunks] is zero. *)
Definition run_in_parallel (p : thread_pool chunk) (begin end_ : Z)
    (schedule_factor min_chunk_size : Z) : list event * exit :=
  if (schedule_factor =? 0) || (min_chunk_size =? 0)
  then ([], Aborted AssertionFailed)
  else
    let range_size := wrap64 (end_ - begin) in
    if range_size =? 0 then ([], Returned)
    else
      let num_chunks := wrap64 (schedule_factor * num_workers p) in
      if num_chunks =? 0 then ([], Aborted DivisionByZero)
      else
        let chunk_size :=
          clamped_chunk_size range_size num_chunks min_chunk_size in
        if range_size <=? chunk_size then
          match invoke_loop (Z.to_nat range_size) begin end_ with
          | Some positions => (map Invoke positions, Returned)
          | None => ([], OutOfFuel)
          end
        else
          match split_loop (Z.to_nat range_size) begin range_size chunk_size
                           0 chunk_size with
          | Some jobs => (map Enqueue jobs ++ [Wait], Returned)
          | None => ([], OutOfFuel)
          end.

(** The overload of lines 303-305. *)
Definition run_in_parallel_default (p : thread_pool chunk) (begin end_ : Z)
    : list event * exit :=
  run_in_parallel p begin end_ 1 1.

(** The pool steps the calling thread takes for its events. *)
Definition caller_step (e : event) : list (label chunk) :=
  match e with
  | Invoke _ => []
  | Enqueue job => [L_enqueue_job job]
  | Wait => [L_wait]
  end.

Definition caller_steps (es : list event) : list (label chunk) :=
  concat (map caller_step es).

(** The positions [func] has been applied to: by the calling thread, and by
    the jobs that have run to their end. *)
Definition invoked (es : list event) : list Z :=
  concat (map (fun e => match e with Invoke k => [k] | _ => [] end) es).

Definition enqueued (es : list event) : list chunk :=
  concat (map (fun e => match e with Enqueue job => [job] | _ => [] end) es).

Definition applied (s : process chunk) : list Z :=
  concat (map chunk_positions (executed s)).

(** *** The partition as the specification words it *)

(** Contiguous half-open chunks of length [chunk_size] over
    [0, range_size), the last one cut at [range_size]. *)
Definition chunk_count (range_size chunk_size : Z) : Z :=
  (range_size + chunk_size - 1) / chunk_size.

Definition nth_chunk (begin range_size chunk_size k : Z) : chunk :=
  Chunk (begin + k * chunk_size)
        (begin + Z.min ((k + 1) * chunk_size) range_size).

Definition partition (begin range_size chunk_size : Z) : list chunk :=
  map (nth_chunk begin range_size chunk_size)
      (seqZ 0 (chunk_count range_size chunk_size)).

Definition chunk_length (job : chunk) : Z := it_end job - it job.

(** *** A scenario of the specification *)

(** A pool is started with four workers, ten jobs are enqueued, worker 0
    runs them all, [wait()] returns, and [terminate()] is called: the flag is
    cleared, the four workers leave their loops, the joins complete. *)
Definition ten_jobs_then_terminate : list (label unit) :=
  L_start 4 :: replicate 10 (L_enqueue_job tt)
  ++ concat (replicate 10 [L_work_loop 0%nat; L_work_loop 0%nat])
  ++ L_wait :: L_terminate_flag
  :: map L_work_loop [0; 1; 2; 3]%nat ++ [L_terminate_join].

(** * Facts about the pool *)

Section pool_facts.

Context {Job : Type}.
Implicit Types (p : thread_pool Job) (s : process Job) (l : label Job).
Implicit Types (ws : list (worker Job)) (w : worker Job).

Lemma bind_Ok {A B : Type} (o : outcome A) (k : A -> outcome B) (b : B) :
  bind o k = Ok b -> exists a, o = Ok a /\ k a = Ok b.
Proof. destruct o; simpl; intros H; try discriminate. eauto. Qed.

Lemma run_app (ls1 ls2 : list (label Job)) s :
  run (ls1 ++ ls2) s = bind (run ls1 s) (run ls2).
Proof.
  revert s. induction ls1 as [|l ls1 IH]; intros s; simpl; [done|].
  destruct (step l s); simpl; auto.
Qed.

Lemma reachable_init : reachable (Job := Job) process_init.
Proof. exists []. reflexivity. Qed.

Lemma reachable_step l s s' :
  reachable s -> step l s = Ok s' -> reachable s'.
Proof.
  intros [ls Hls] Hstep. exists (ls ++ [l]).
  rewrite run_app, Hls. simpl. rewrite Hstep. reflexivity.
Qed.

Lemma reachable_run ls s s' :
  reachable s -> run ls s = Ok s' -> reachable s'.
Proof.
  revert s. induction ls as [|l ls IH]; intros s Hs Hrun; simpl in Hrun.
  - congruence.
  - apply bind_Ok in Hrun as (s1 & Hstep & Hrun).
    eauto using reachable_step.
Qed.

(** Induction over the schedules that lead to a state. *)
Lemma reachable_ind (P : process Job -> Prop) :
  P process_init ->
  (forall l s s', reachable s -> P s -> step l s = Ok s' -> P s') ->
  forall s, reachable s -> P s.
Proof.
  intros Hinit Hstep s [ls Hls]. revert s Hls.
  induction ls as [|l ls IH] using rev_ind; intros s Hls.
  - simpl in Hls. congruence.
  - rewrite run_app in Hls. apply bind_Ok in Hls as (s1 & Hrun & Hl).
    simpl in Hl. apply bind_Ok in Hl as (s2 & Hl & Heq).
    injection Heq as <-.
    apply (Hstep l s1 s2); [exists ls; exact Hrun | apply IH; exact Hrun | exact Hl].
Qed.

(** *** Jobs in execution under an update of the worker array *)

Lemma running_jobs_insert ws i w w0 :
  ws !! i = Some w0 ->
  running_job w0 ++ concat (map running_job (<[i := w]> ws))
  ≡ₚ running_job w ++ concat (map running_job ws).
Proof.
  revert i. induction ws as [|a ws IH]; intros [|i] Hi; simpl in *;
    try discriminate.
  - injection Hi as ->. apply Permutation_app_swap_app.
  - rewrite !(Permutation_app_swap_app _ (running_job a)).
    apply Permutation_app_head. apply IH. exact Hi.
Qed.

Lemma running_jobs_insert_length ws i w w0 :
  ws !! i = Some w0 ->
  Z.of_nat (length (concat (map running_job (<[i := w]> ws))))
  = Z.of_nat (length (concat (map running_job ws)))
    - Z.of_nat (length (running_job w0)) + Z.of_nat (length (running_job w)).
Proof.
  intros Hi. pose proof (running_jobs_insert ws i w w0 Hi) as HP.
  apply Permutation_length in HP. rewrite !length_app in HP. lia.
Qed.

Lemma wrap32_succ z : wrap32 (wrap32 z + 1) = wrap32 (z + 1).
Proof. unfold wrap32. apply Z.add_mod_idemp_l. unfold UINT32_MOD. lia. Qed.

Lemma wrap32_pred z : wrap32 (wrap32 z - 1) = wrap32 (z - 1).
Proof. unfold wrap32. apply Zminus_mod_idemp_l. Qed.

Lemma wrap32_small z : 0 <= z < UINT32_MOD -> wrap32 z = z.
Proof. unfold wrap32. apply Z.mod_small. Qed.

Lemma join_loop_live ws i count :
  join_loop (Some ws) i count = Ok tt ->
  forall k, (i <= k < i + count)%nat -> ws !! k = Some Exited.
Proof.
  revert i. induction count as [|count IH]; intros i H k Hk; [lia|].
  simpl in H. apply bind_Ok in H as ([] & Hj & Hloop).
  destruct (decide (k = i)) as [->|Hne].
  - unfold join in Hj. destruct (ws !! i) as [[]|]; simpl in Hj; congruence.
  - apply (IH (S i)); [exact Hloop | lia].
Qed.

Lemma all_exited_no_jobs ws :
  (forall k, (k < length ws)%nat -> ws !! k = Some Exited) ->
  concat (map running_job ws) = [].
Proof.
  induction ws as [|a ws IH]; intros H; [done|]. simpl.
  pose proof (H 0%nat ltac:(simpl; lia)) as H0. simpl in H0.
  injection H0 as ->. simpl. apply IH. intros k Hk.
  apply (H (S k)). simpl. lia.
Qed.

(** *** The invariant *)

Lemma pool_inv_init : pool_inv (Job := Job) process_init.
Proof.
  split; simpl; try done.
Qed.

Lemma work_loop_Ok i p p' done :
  work_loop i p = Ok (p', done) ->
  exists ws w, _workers p = Some ws /\ ws !! i = Some w /\
    match w with
    | Waiting =>
        done = None /\
        ((_running p = true /\ _num_jobs p <> 0 /\
          exists job rest, _job_queue p = job :: rest /\
            p' = set_worker i (Executing job) p ws rest (_num_jobs p)) \/
         (_running p = false /\
          p' = set_worker i Exited p ws (_job_queue p) (_num_jobs p)))
    | Executing job =>
        done = Some job /\
        p' = set_worker i Waiting p ws (_job_queue p) (wrap32 (_num_jobs p - 1))
    | Exited => False
    end.
Proof.
  unfold work_loop. intros H.
  destruct (_workers p) as [ws|] eqn:Hws; [|discriminate].
  destruct (ws !! i) as [w|] eqn:Hw; [|discriminate].
  exists ws, w. split; [done|]. split; [done|].
  destruct w as [|job|]; [| |discriminate].
  - unfold wake in H.
    destruct (_running p) eqn:Hr; simpl in H.
    + destruct (_num_jobs p =? 0) eqn:Hn; simpl in H; [discriminate|].
      apply Z.eqb_neq in Hn.
      destruct (_job_queue p) as [|job rest] eqn:Hq; [discriminate|].
      injection H as <- <-. split; [done|]. left. eauto 10.
    + injection H as <- <-. split; [done|]. right. done.
  - injection H as <- <-. done.
Qed.

Lemma pool_inv_step l s s' :
  pool_inv s -> step l s = Ok s' -> pool_inv s'.
Proof.
  intros [Hnw Hws Hnj Hns Hrun Hex] Hstep.
  destruct l as [n|job| | | |i]; simpl in Hstep.
  - (* start *)
    destruct (started s) eqn:Hst; [discriminate|].
    destruct ((0 <=? n) && (n <? UINT32_MOD)) eqn:Hn; [|discriminate].
    injection Hstep as <-. apply andb_prop in Hn as [Hn1 Hn2].
    apply Z.leb_le in Hn1. apply Z.ltb_lt in Hn2.
    destruct (Hns eq_refl) as (Hw0 & _ & _ & He).
    split; simpl; try done.
    + intros ws [= <-]. apply length_replicate.
    + rewrite Hnj. unfold outstanding, queue_length, mid_execution,
        jobs_in_execution. simpl. rewrite Hw0. f_equal. f_equal.
      induction (Z.to_nat n); simpl; auto.
  - (* enqueue_job *)
    injection Hstep as <-. split; simpl; try done.
    rewrite Hnj, wrap32_succ. f_equal.
    unfold outstanding, queue_length, mid_execution, jobs_in_execution.
    simpl. rewrite length_app. simpl. lia.
  - (* wait *)
    unfold wait in Hstep. destruct (_num_jobs (pool s) =? 0); [|discriminate].
    simpl in Hstep. injection Hstep as <-. destruct s; done.
  - (* terminate, flag *)
    injection Hstep as <-. split; simpl; try done.
    intros Hst. destruct (Hns Hst) as (? & ? & ? & ?). done.
  - (* terminate, joins *)
    destruct (_running (pool s)) eqn:Hr; [discriminate|].
    apply bind_Ok in Hstep as (p' & Hj & [= <-]).
    unfold terminate_join in Hj. apply bind_Ok in Hj as ([] & Hloop & [= <-]).
    split; simpl; try done; try congruence.
    + rewrite Hnj. f_equal.
      unfold outstanding, queue_length, mid_execution, jobs_in_execution.
      simpl. destruct (_workers (pool s)) as [ws|] eqn:Hw; [|done].
      rewrite all_exited_no_jobs; [done|].
      intros k Hk. eapply join_loop_live; [exact Hloop|].
      rewrite <- (Hws ws eq_refl). lia.
    + intros Hst. destruct (Hns Hst) as (? & ? & ? & ?). done.
  - (* work_loop *)
    apply bind_Ok in Hstep as ([p' done] & Hw & [= <-]). simpl.
    apply work_loop_Ok in Hw as (ws & w & Hws' & Hi & Hw).
    assert (Hlen : (i < length ws)%nat) by (eapply lookup_lt_Some; eauto).
    assert (Hpos : _num_workers (pool s) <> 0).
    { rewrite (Hws ws Hws') in Hlen. lia. }
    assert (Hstarted : started s = true).
    { destruct (started s) eqn:Hst; [done|].
      destruct (Hns eq_refl) as (? & _). congruence. }
    destruct w as [|job|]; [| |done].
    + destruct Hw as (-> & [(Hr & Hn & job & rest & Hq & ->)|(Hr & ->)]).
      * split; simpl; try done.
        -- intros ws' [= <-]. rewrite length_insert. auto.
        -- rewrite Hnj. f_equal.
           unfold outstanding, queue_length, mid_execution, jobs_in_execution.
           simpl. rewrite Hws', Hq.
           rewrite (running_jobs_insert_length ws i _ _ Hi). simpl length. lia.
        -- congruence.
      * split; simpl; try done.
        -- intros ws' [= <-]. rewrite length_insert. auto.
        -- rewrite Hnj. f_equal.
           unfold outstanding, queue_length, mid_execution, jobs_in_execution.
           simpl. rewrite Hws'.
           rewrite (running_jobs_insert_length ws i _ _ Hi). simpl length. lia.
        -- congruence.
    + destruct Hw as (-> & ->). split; simpl; try done.
      * intros ws' [= <-]. rewrite length_insert. auto.
      * rewrite Hnj, wrap32_pred. f_equal.
        unfold outstanding, queue_length, mid_execution, jobs_in_execution.
        simpl. rewrite Hws'.
        rewrite (running_jobs_insert_length ws i _ _ Hi). simpl length. lia.
      * congruence.
Qed.

Lemma reachable_inv s : reachable s -> pool_inv s.
Proof.
  revert s. apply reachable_ind.
  - apply pool_inv_init.
  - intros l s s' _ IH Hstep. exact (pool_inv_step l s s' IH Hstep).
Qed.

(** *** Draining *)

Lemma drain_step l s s' :
  pool_inv s ->
  _running (pool s) = false -> drain_label l -> step l s = Ok s' ->
  _running (pool s') = false /\
  _job_queue (pool s') = _job_queue (pool s) /\
  exists done,
    executed s' = executed s ++ done /\
    done ++ jobs_in_execution (pool s') ≡ₚ jobs_in_execution (pool s).
Proof.
  intros Hinv Hr Hl Hstep. destruct l as [n|job| | | |i]; simpl in Hl, Hstep;
    try contradiction.
  - unfold wait in Hstep. destruct (_num_jobs (pool s) =? 0); [|discriminate].
    injection Hstep as <-. simpl. repeat split; try done.
    exists []. rewrite app_nil_r. done.
  - injection Hstep as <-. simpl. repeat split; try done.
    exists []. rewrite app_nil_r. done.
  - rewrite Hr in Hstep. apply bind_Ok in Hstep as (p' & Hj & [= <-]).
    unfold terminate_join in Hj. apply bind_Ok in Hj as ([] & Hloop & [= <-]).
    simpl. repeat split; try done. exists []. rewrite app_nil_r.
    split; [done|]. unfold jobs_in_execution. simpl.
    destruct (_workers (pool s)) as [ws|] eqn:Hw; [|done].
    rewrite all_exited_no_jobs; [done|].
    intros k Hk. eapply join_loop_live; [exact Hloop|].
    rewrite <- (inv_workers s Hinv ws Hw). lia.
  - apply bind_Ok in Hstep as ([p' done] & Hw & [= <-]). simpl.
    apply work_loop_Ok in Hw as (ws & w & Hws' & Hi & Hw).
    unfold jobs_in_execution. rewrite Hws'.
    destruct w as [|job|]; [| |done].
    + destruct Hw as (-> & [(Hr' & _)|(_ & ->)]); [congruence|].
      simpl. repeat split; try done. exists []. rewrite app_nil_r.
      split; [done|]. simpl.
      pose proof (running_jobs_insert ws i Exited Waiting Hi) as HP.
      simpl in HP. exact HP.
    + destruct Hw as (-> & ->). simpl. repeat split; try done.
      exists [job]. split; [done|]. simpl.
      pose proof (running_jobs_insert ws i Waiting (Executing job) Hi) as HP.
      simpl in HP. exact HP.
Qed.

Lemma drain_run ls s s' :
  pool_inv s ->
  _running (pool s) = false -> Forall drain_label ls -> run ls s = Ok s' ->
  _running (pool s') = false /\
  _job_queue (pool s') = _job_queue (pool s) /\
  exists done,
    executed s' = executed s ++ done /\
    done ++ jobs_in_execution (pool s') ≡ₚ jobs_in_execution (pool s).
Proof.
  revert s. induction ls as [|l ls IH]; intros s Hinv Hr Hls Hrun.
  - injection Hrun as <-. repeat split; try done.
    exists []. rewrite app_nil_r. done.
  - simpl in Hrun. apply bind_Ok in Hrun as (s1 & Hstep & Hrun).
    apply Forall_cons_1 in Hls as [Hl Hls].
    destruct (drain_step l s s1 Hinv Hr Hl Hstep) as (Hr1 & Hq1 & d1 & He1 & HP1).
    destruct (IH s1 (pool_inv_step l s s1 Hinv Hstep) Hr1 Hls Hrun)
      as (Hr2 & Hq2 & d2 & He2 & HP2).
    repeat split; try congruence.
    exists (d1 ++ d2). split.
    + rewrite He2, He1, app_assoc. done.
    + rewrite <- HP1, <- HP2, app_assoc. done.
Qed.

(** *** The wait of [work_loop] and its assertion *)

(** C1, at the failing schedule. The pool has two workers and one job.
    Worker 0 takes the job and runs it; the queue is empty and [_num_jobs]
    is still 1. Worker 1 then evaluates the predicate of line 189, finds
    it true, finds [_running] true, and the assertion of line 194 fails:
    a running worker goes past its wait with an empty queue. *)
Theorem work_loop_assertion_fails (job : Job) :
  exists s,
    run [L_start 2; L_enqueue_job job; L_work_loop 0%nat] process_init = Ok s /\
    _running (pool s) = true /\
    _workers (pool s) = Some [Executing job; Waiting] /\
    _job_queue (pool s) = [] /\
    _num_jobs (pool s) = 1 /\
    wake (pool s) = true /\
    step (L_work_loop 1%nat) s = Fault AssertionFailed.
Proof. eexists. repeat split; reflexivity. Qed.

(** With a single worker the assertion holds: a waiting worker that finds
    the predicate true while the pool runs finds a job in the queue. *)
Lemma single_worker_assertion_holds s i :
  reachable s -> _num_workers (pool s) = 1 ->
  step (L_work_loop i) s <> Fault AssertionFailed.
Proof.
  intros Hs Hone Hf. pose proof (reachable_inv s Hs) as Hinv.
  simpl in Hf. unfold work_loop in Hf.
  destruct (_workers (pool s)) as [ws|] eqn:Hws; [|discriminate].
  pose proof (inv_workers s Hinv ws Hws) as Hlen. rewrite Hone in Hlen.
  destruct ws as [|w [|w' ws]]; try discriminate.
  destruct i as [|i]; simpl in Hf; [|discriminate].
  destruct w as [|job|]; try discriminate.
  unfold wake in Hf. destruct (_running (pool s)) eqn:Hr; simpl in Hf;
    [|discriminate].
  destruct (_num_jobs (pool s) =? 0) eqn:Hn; simpl in Hf; [discriminate|].
  apply Z.eqb_neq in Hn.
  destruct (_job_queue (pool s)) as [|job rest] eqn:Hq; [|discriminate].
  apply Hn. rewrite (inv_num_jobs s Hinv).
  unfold outstanding, queue_length, mid_execution, jobs_in_execution.
  rewrite Hws, Hq. reflexivity.
Qed.

(** *** The outstanding-job counter *)

Lemma run_enqueue_many (n : nat) (job : Job) s :
  exists s',
    run (replicate n (L_enqueue_job job)) s = Ok s' /\
    _job_queue (pool s') = _job_queue (pool s) ++ replicate n job /\
    _workers (pool s') = _workers (pool s) /\
    _running (pool s') = _running (pool s).
Proof.
  revert s. induction n as [|n IH]; intros s.
  - exists s. rewrite app_nil_r. done.
  - destruct (IH (with_pool s (enqueue_job job (pool s))))
      as (s' & Hrun & Hq & Hw & Hr).
    exists s'. split; [exact Hrun|]. simpl in Hq, Hw, Hr.
    rewrite Hq, Hw, Hr, <- app_assoc. done.
Qed.

(** C5, as amended. In every state a schedule can lead to, running or not,
    the counter [_num_jobs] is the number of jobs in the queue plus the
    number of jobs in execution, reduced modulo 2^32; the two are equal
    whenever fewer than 2^32 jobs are outstanding. [enqueue_job] adds one to
    the counter, a worker that takes a job from the queue leaves the
    counter as it is, and a worker subtracts one when the job it ran has
    ended. *)
Theorem num_jobs_counts_outstanding s :
  reachable s ->
  _num_jobs (pool s) = wrap32 (outstanding (pool s)) /\
  (outstanding (pool s) < UINT32_MOD ->
   queue_length (pool s) + mid_execution (pool s) = _num_jobs (pool s)) /\
  (forall job,
     _num_jobs (enqueue_job job (pool s)) = wrap32 (_num_jobs (pool s) + 1)) /\
  (forall i p' done,
     work_loop i (pool s) = Ok (p', done) ->
     _num_jobs p' = match done with
                    | Some _ => wrap32 (_num_jobs (pool s) - 1)
                    | None => _num_jobs (pool s)
                    end).
Proof.
  intros Hs. pose proof (reachable_inv s Hs) as Hinv.
  split; [apply Hinv|]. split; [|split].
  - intros Hlt. rewrite (inv_num_jobs s Hinv), wrap32_small; [done|].
    unfold outstanding, queue_length, mid_execution in *. lia.
  - done.
  - intros i p' done Hw.
    apply work_loop_Ok in Hw as (ws & w & _ & _ & Hw).
    destruct w as [|job|]; [| |done].
    + destruct Hw as (-> & [(_ & _ & job & rest & _ & ->)|(_ & ->)]); done.
    + destruct Hw as (-> & ->). done.
Qed.

(** C3, as amended. The pool is running, jobs are in the queue and fewer
    than 2^32 jobs are outstanding when [terminate()] clears the flag. In
    every state that follows, whatever the workers, a caller of [wait()]
    and the joins of [terminate()] do: the queue is what it was, so no
    queued job is ever taken; the jobs that end are jobs that were already
    running; [_num_jobs] is not zero; and [wait()] cannot return. *)
Theorem terminate_discards_queued_jobs s ls s' :
  reachable s ->
  _running (pool s) = true ->
  _job_queue (pool s) <> [] ->
  outstanding (pool s) < UINT32_MOD ->
  Forall drain_label ls ->
  run (L_terminate_flag :: ls) s = Ok s' ->
  discarded s s'.
Proof.
  intros Hs Hr Hq Hlt Hls Hrun. simpl in Hrun.
  set (s1 := with_pool s (terminate_flag (pool s))) in *.
  assert (Hs1 : reachable s1) by (apply (reachable_step L_terminate_flag s); done).
  destruct (drain_run ls s1 s' (reachable_inv s1 Hs1) eq_refl Hls Hrun)
    as (Hr' & Hq' & done & He & HP).
  pose proof (reachable_inv s' (reachable_run ls s1 s' Hs1 Hrun)) as Hinv'.
  change (jobs_in_execution (pool s1)) with (jobs_in_execution (pool s)) in HP.
  change (executed s1) with (executed s) in He.
  change (_job_queue (pool s1)) with (_job_queue (pool s)) in Hq'.
  assert (Hn : _num_jobs (pool s') <> 0).
  { rewrite (inv_num_jobs s' Hinv').
    apply Permutation_length in HP. rewrite length_app in HP.
    unfold outstanding, queue_length, mid_execution in *.
    rewrite Hq'. simpl in *.
    assert (0 < length (_job_queue (pool s)))%nat.
    { destruct (_job_queue (pool s)); [done|simpl; lia]. }
    rewrite wrap32_small; lia. }
  unfold discarded. repeat split; try done.
  - exists done. done.
  - simpl. unfold wait. apply Z.eqb_neq in Hn. rewrite Hn. done.
Qed.

(** In the draining pool a waiting worker leaves through the [break] of
    line 206 and takes nothing from the queue. *)
Lemma work_loop_draining i p ws :
  _running p = false -> _workers p = Some ws -> ws !! i = Some Waiting ->
  work_loop i p
  = Ok (set_worker i Exited p ws (_job_queue p) (_num_jobs p), None).
Proof.
  intros Hr Hws Hi. unfold work_loop, wake. rewrite Hws, Hi, Hr. done.
Qed.

(** *** No job is lost, none runs twice *)

Lemma no_jobs_before_start (n : nat) :
  concat (map running_job (replicate n (Waiting (Job := Job)))) = [].
Proof. induction n as [|n IH]; simpl; auto. Qed.

Lemma step_all_jobs l s s' :
  pool_inv s -> step l s = Ok s' ->
  all_jobs s' ≡ₚ all_jobs s ++ enqueued_by [l].
Proof.
  intros Hinv Hstep. unfold all_jobs, enqueued_by.
  destruct l as [n|job| | | |i]; simpl in Hstep; simpl concat.
  - destruct (started s) eqn:Hst; [discriminate|].
    destruct ((0 <=? n) && (n <? UINT32_MOD)); [|discriminate].
    injection Hstep as <-.
    destruct (inv_not_started s Hinv Hst) as (Hw & _).
    unfold jobs_in_execution. simpl. rewrite Hw, no_jobs_before_start.
    rewrite app_nil_r. done.
  - injection Hstep as <-. simpl. rewrite !app_assoc. done.
  - unfold wait in Hstep. destruct (_num_jobs (pool s) =? 0); [|discriminate].
    injection Hstep as <-. simpl. rewrite app_nil_r. done.
  - injection Hstep as <-. simpl. rewrite app_nil_r. done.
  - destruct (_running (pool s)); [discriminate|].
    apply bind_Ok in Hstep as (p' & Hj & [= <-]).
    unfold terminate_join in Hj. apply bind_Ok in Hj as ([] & Hloop & [= <-]).
    unfold jobs_in_execution. simpl. rewrite app_nil_r.
    destruct (_workers (pool s)) as [ws|] eqn:Hw; [|done].
    rewrite all_exited_no_jobs; [done|].
    intros k Hk. eapply join_loop_live; [exact Hloop|].
    rewrite <- (inv_workers s Hinv ws Hw). lia.
  - apply bind_Ok in Hstep as ([p' done] & Hw & [= <-]). simpl.
    rewrite app_nil_r.
    apply work_loop_Ok in Hw as (ws & w & Hws & Hi & Hw).
    unfold jobs_in_execution. rewrite Hws.
    destruct w as [|job|]; [| |done].
    + destruct Hw as (-> & [(_ & _ & job & rest & Hq & ->)|(_ & ->)]); simpl.
      * pose proof (running_jobs_insert ws i (Executing job) Waiting Hi) as HP.
        simpl in HP. rewrite HP, Hq.
        apply Permutation_app_head. simpl. apply Permutation_middle.
      * pose proof (running_jobs_insert ws i Exited Waiting Hi) as HP.
        simpl in HP. rewrite HP. done.
    + destruct Hw as (-> & ->). simpl.
      pose proof (running_jobs_insert ws i Waiting (Executing job) Hi) as HP.
      simpl in HP. rewrite <- HP, <- app_assoc. done.
Qed.

Lemma run_all_jobs ls s s' :
  pool_inv s -> run ls s = Ok s' ->
  all_jobs s' ≡ₚ all_jobs s ++ enqueued_by ls.
Proof.
  revert s. induction ls as [|l ls IH]; intros s Hinv Hrun.
  - injection Hrun as <-. unfold enqueued_by. simpl. rewrite app_nil_r. done.
  - simpl in Hrun. apply bind_Ok in Hrun as (s1 & Hstep & Hrun).
    rewrite (IH s1 (pool_inv_step l s s1 Hinv Hstep) Hrun).
    rewrite (step_all_jobs l s s1 Hinv Hstep).
    unfold enqueued_by. simpl. rewrite !app_nil_r, <- !app_assoc. done.
Qed.

(** When [wait()] returns and fewer than 2^32 jobs are outstanding, every
    job that was enqueued has run to its end, once. *)
Lemma wait_returns_all_executed ls s :
  run ls process_init = Ok s ->
  outstanding (pool s) < UINT32_MOD ->
  step L_wait s = Ok s ->
  executed s ≡ₚ enqueued_by ls.
Proof.
  intros Hrun Hlt Hwait.
  assert (Hs : reachable s) by (exists ls; exact Hrun).
  pose proof (reachable_inv s Hs) as Hinv.
  pose proof (run_all_jobs ls process_init s pool_inv_init Hrun) as HP.
  simpl in Hwait. unfold wait in Hwait.
  destruct (_num_jobs (pool s) =? 0) eqn:Hn; [|discriminate].
  apply Z.eqb_eq in Hn. rewrite (inv_num_jobs s Hinv) in Hn.
  rewrite wrap32_small in Hn
    by (unfold outstanding, queue_length, mid_execution in *; lia).
  unfold outstanding, queue_length, mid_execution in Hn.
  assert (Hq : _job_queue (pool s) = [])
    by (destruct (_job_queue (pool s)); [done | simpl in Hn; lia]).
  assert (Hj : jobs_in_execution (pool s) = [])
    by (destruct (jobs_in_execution (pool s)); [done | simpl in Hn; lia]).
  unfold all_jobs in HP. rewrite Hq, Hj in HP. simpl in HP.
  rewrite !app_nil_r in HP. exact HP.
Qed.

(** *** [terminate()] called again *)

(** The joins leave [_num_workers] as it is and null [_workers]. *)
Lemma terminate_join_Ok p p' :
  terminate_join p = Ok p' ->
  _workers p' = None /\ _num_workers p' = _num_workers p.
Proof.
  unfold terminate_join. intros H.
  apply bind_Ok in H as ([] & _ & [= <-]). done.
Qed.

(** On a pool that was started with at least one worker and has been
    terminated, a second [terminate()] calls [join] through the null
    pointer. *)
Lemma terminate_again_faults s :
  reachable s -> _workers (pool s) = None -> _num_workers (pool s) <> 0 ->
  run terminate s = Fault NullDereference.
Proof.
  intros Hs Hw Hn. pose proof (inv_num_workers s (reachable_inv s Hs)) as Hu.
  unfold is_uint32 in Hu. simpl. unfold terminate_join. simpl. rewrite Hw.
  destruct (Z.to_nat (_num_workers (pool s))) as [|count] eqn:Hc; [lia|].
  reflexivity.
Qed.

(** On a pool that was never started [terminate()] changes nothing. *)
Lemma terminate_never_started :
  run terminate (process_init (Job := Job)) = Ok process_init.
Proof. reflexivity. Qed.

(** Once a job has run, [num_workers()] is never zero again. *)
Lemma num_workers_after_jobs s :
  reachable s -> executed s <> [] -> num_workers (pool s) <> 0.
Proof. intros Hs. apply (inv_executed s (reachable_inv s Hs)). Qed.

End pool_facts.

(** ** The counter at 2^32 outstanding jobs *)

(** A pool started with no workers keeps every job in its queue. After [n]
    calls of [enqueue_job], with [n] equal to 2^32, the counter has wrapped
    around to zero. *)
Lemma counter_wrapped_at (n : nat) :
  Z.of_nat n = UINT32_MOD ->
  exists s : process unit,
    run (L_start 0 :: replicate n (L_enqueue_job tt)) process_init = Ok s /\
    _running (pool s) = true /\
    _job_queue (pool s) <> [] /\
    queue_length (pool s) = UINT32_MOD /\
    mid_execution (pool s) = 0 /\
    _num_jobs (pool s) = 0.
Proof.
  intros Hn.
  set (s0 := Process (start 0 (thread_pool_ctor (Job := unit))) [] true).
  destruct (run_enqueue_many n tt s0) as (s & Hrun & Hq & Hw & Hr).
  change (_job_queue (pool s0)) with (@nil unit) in Hq.
  rewrite app_nil_l in Hq.
  exists s.
  assert (Hrun' : run (L_start 0 :: replicate n (L_enqueue_job tt))
                      process_init = Ok s) by exact Hrun.
  assert (Hlen : queue_length (pool s) = UINT32_MOD).
  { unfold queue_length. rewrite Hq, length_replicate. exact Hn. }
  assert (Hmid : mid_execution (pool s) = 0).
  { unfold mid_execution, jobs_in_execution. rewrite Hw. reflexivity. }
  split; [exact Hrun'|]. split; [exact Hr|]. split.
  { intros Hnil. unfold queue_length in Hlen. rewrite Hnil in Hlen.
    discriminate Hlen. }
  split; [exact Hlen|]. split; [exact Hmid|].
  assert (Hs : reachable s) by (eexists; exact Hrun').
  rewrite (inv_num_jobs s (reachable_inv s Hs)).
  unfold outstanding. rewrite Hlen, Hmid. reflexivity.
Qed.

Lemma UINT32_MOD_nat : Z.of_nat (Z.to_nat UINT32_MOD) = UINT32_MOD.
Proof. apply Z2Nat.id. discriminate. Qed.

(** C5, as stated, fails: in a running pool the queue holds 2^32 jobs, no job
    is in execution, and [_num_jobs] is 0. *)
Lemma num_jobs_wraps_around :
  exists s : process unit,
    run (L_start 0 :: replicate (Z.to_nat UINT32_MOD) (L_enqueue_job tt))
        process_init = Ok s /\
    _running (pool s) = true /\
    queue_length (pool s) = UINT32_MOD /\
    mid_execution (pool s) = 0 /\
    _num_jobs (pool s) = 0 /\
    queue_length (pool s) + mid_execution (pool s) <> _num_jobs (pool s).
Proof.
  destruct (counter_wrapped_at (Z.to_nat UINT32_MOD) UINT32_MOD_nat)
    as (s & Hrun & Hr & Hq & Hlen & Hmid & Hn).
  exists s.
  split; [exact Hrun|]. split; [exact Hr|]. split; [exact Hlen|].
  split; [exact Hmid|]. split; [exact Hn|].
  rewrite Hlen, Hmid, Hn. discriminate.
Qed.

(** C3, as stated, fails in the same state: [terminate()] is called while the
    queue is not empty, and it leaves the counter at zero, so that [wait()]
    returns. *)
Lemma terminate_leaves_counter_zero :
  exists s s' : process unit,
    run (L_start 0 :: replicate (Z.to_nat UINT32_MOD) (L_enqueue_job tt))
        process_init = Ok s /\
    _running (pool s) = true /\
    _job_queue (pool s) <> [] /\
    run [L_terminate_flag] s = Ok s' /\
    _num_jobs (pool s') = 0 /\
    step L_wait s' = Ok s' /\
    ~ discarded s s'.
Proof.
  destruct (counter_wrapped_at (Z.to_nat UINT32_MOD) UINT32_MOD_nat)
    as (s & Hrun & Hr & Hq & Hlen & Hmid & Hn).
  exists s, (with_pool s (terminate_flag (pool s))).
  split; [exact Hrun|]. split; [exact Hr|]. split; [exact Hq|].
  split; [reflexivity|]. split; [exact Hn|]. split.
  - cbn [step]. unfold wait.
    change (_num_jobs (pool (with_pool s (terminate_flag (pool s)))))
      with (_num_jobs (pool s)).
    rewrite Hn. reflexivity.
  - intros (_ & _ & _ & Hnz & _). apply Hnz. exact Hn.
Qed.

(** A state for the two theorems on the counter: one worker, two jobs, the
    first of them taken from the queue and running. *)
Lemma num_jobs_counts_outstanding_witness :
  let s : process unit :=
    Process (ThreadPool 1 2 (Some [Executing tt]) [tt] true) [] true in
  reachable s /\
  _num_jobs (pool s) = wrap32 (outstanding (pool s)) /\
  queue_length (pool s) + mid_execution (pool s) = _num_jobs (pool s).
Proof.
  intros s.
  assert (Hs : reachable s).
  { exists [L_start 1; L_enqueue_job tt; L_enqueue_job tt; L_work_loop 0%nat].
    reflexivity. }
  split; [exact Hs|].
  destruct (num_jobs_counts_outstanding s Hs) as (H1 & H2 & _).
  split; [exact H1|]. apply H2. vm_compute. reflexivity.
Defined.

(** [terminate()] with one job running and one in the queue: the worker ends
    its job and leaves, the joins complete, and the queued job is still in
    the queue. *)
Lemma terminate_discards_queued_jobs_witness :
  let s : process unit :=
    Process (ThreadPool 1 2 (Some [Executing tt]) [tt] true) [] true in
  let s' : process unit :=
    Process (ThreadPool 1 1 None [tt] false) [tt] true in
  reachable s /\ discarded s s'.
Proof.
  intros s s'.
  assert (Hs : reachable s).
  { exists [L_start 1; L_enqueue_job tt; L_enqueue_job tt; L_work_loop 0%nat].
    reflexivity. }
  split; [exact Hs|].
  apply (terminate_discards_queued_jobs s
           [L_work_loop 0%nat; L_work_loop 0%nat; L_terminate_join] s' Hs).
  - reflexivity.
  - discriminate.
  - vm_compute. reflexivity.
  - repeat constructor.
  - reflexivity.
Defined.

(** * More on the pool *)

Section pool_order.

Context {Job : Type}.
Implicit Types (p : thread_pool Job) (s : process Job) (l : label Job).
Implicit Types (ws : list (worker Job)) (w : worker Job).

Lemma enqueued_by_app (ls1 ls2 : list (label Job)) :
  enqueued_by (ls1 ++ ls2) = enqueued_by ls1 ++ enqueued_by ls2.
Proof. unfold enqueued_by. rewrite map_app, concat_app. reflexivity. Qed.

(** Induction over a schedule from the initial state, one step at its end. *)
Lemma run_snoc_ind (P : list (label Job) -> process Job -> Prop) :
  P [] process_init ->
  (forall ls l s s',
     run ls process_init = Ok s -> P ls s -> step l s = Ok s' ->
     P (ls ++ [l]) s') ->
  forall ls s, run ls process_init = Ok s -> P ls s.
Proof.
  intros Hinit Hstep ls.
  induction ls as [|l ls IH] using rev_ind; intros s Hls.
  - injection Hls as <-. exact Hinit.
  - rewrite run_app in Hls. apply bind_Ok in Hls as (s1 & Hrun & Hl).
    simpl in Hl. apply bind_Ok in Hl as (s2 & Hl & [= <-]).
    apply (Hstep ls l s1 s2 Hrun (IH s1 Hrun) Hl).
Qed.

(** What one step does to the queue, to the jobs in execution and to the
    jobs that have ended: it appends a job to the queue, or a worker takes
    the job at the front of the queue, or a worker ends its job, or none of
    the three change. *)
Lemma step_effect l s s' :
  pool_inv s -> step l s = Ok s' ->
  (_job_queue (pool s') = _job_queue (pool s) ++ enqueued_by [l] /\
   executed s' = executed s /\
   jobs_in_execution (pool s') ≡ₚ jobs_in_execution (pool s)) \/
  (enqueued_by [l] = [] /\
   exists job,
     (_job_queue (pool s) = job :: _job_queue (pool s') /\
      executed s' = executed s /\
      jobs_in_execution (pool s') ≡ₚ job :: jobs_in_execution (pool s)) \/
     (_job_queue (pool s') = _job_queue (pool s) /\
      executed s' = executed s ++ [job] /\
      jobs_in_execution (pool s) ≡ₚ job :: jobs_in_execution (pool s'))).
Proof.
  intros Hinv Hstep. unfold enqueued_by.
  destruct l as [n|job| | | |i]; simpl in Hstep; simpl concat.
  - left. destruct (started s) eqn:Hst; [discriminate|].
    destruct ((0 <=? n) && (n <? UINT32_MOD)); [|discriminate].
    injection Hstep as <-.
    destruct (inv_not_started s Hinv Hst) as (Hw & _).
    unfold jobs_in_execution. simpl. rewrite Hw, no_jobs_before_start.
    rewrite app_nil_r. done.
  - left. injection Hstep as <-. done.
  - left. unfold wait in Hstep.
    destruct (_num_jobs (pool s) =? 0); [|discriminate].
    injection Hstep as <-. simpl. rewrite app_nil_r. done.
  - left. injection Hstep as <-. simpl. rewrite app_nil_r. done.
  - left. destruct (_running (pool s)); [discriminate|].
    apply bind_Ok in Hstep as (p' & Hj & [= <-]).
    unfold terminate_join in Hj. apply bind_Ok in Hj as ([] & Hloop & [= <-]).
    unfold jobs_in_execution. simpl. rewrite app_nil_r.
    split; [done|]. split; [done|].
    destruct (_workers (pool s)) as [ws|] eqn:Hw; [|done].
    rewrite all_exited_no_jobs; [done|].
    intros k Hk. eapply join_loop_live; [exact Hloop|].
    rewrite <- (inv_workers s Hinv ws Hw). lia.
  - apply bind_Ok in Hstep as ([p' done] & Hw & [= <-]). simpl.
    apply work_loop_Ok in Hw as (ws & w & Hws & Hi & Hw).
    unfold jobs_in_execution. rewrite Hws.
    destruct w as [|job|]; [| |done].
    + destruct Hw as (-> & [(_ & _ & job & rest & Hq & ->)|(_ & ->)]); simpl.
      * right. split; [done|]. exists job. left. rewrite Hq.
        split; [done|]. split; [done|].
        pose proof (running_jobs_insert ws i (Executing job) Waiting Hi) as HP.
        exact HP.
      * left. rewrite app_nil_r. split; [done|]. split; [done|].
        pose proof (running_jobs_insert ws i Exited Waiting Hi) as HP.
        exact HP.
    + destruct Hw as (-> & ->). simpl. right. split; [done|]. exists job.
      right. split; [done|]. split; [done|].
      pose proof (running_jobs_insert ws i Waiting (Executing job) Hi) as HP.
      simpl in HP. symmetry. exact HP.
Qed.

Lemma run_inv ls s :
  run ls process_init = Ok s -> pool_inv s.
Proof. intros H. apply reachable_inv. exists ls. exact H. Qed.

(** The queue is the part of the enqueued sequence that no worker has taken
    yet. *)
Lemma queue_is_tail ls s :
  run ls process_init = Ok s ->
  exists taken,
    enqueued_by ls = taken ++ _job_queue (pool s) /\
    taken ≡ₚ executed s ++ jobs_in_execution (pool s).
Proof.
  revert ls s. apply run_snoc_ind.
  - exists []. done.
  - intros ls l s s' Hrun (taken & Heq & HP) Hstep.
    rewrite enqueued_by_app, Heq.
    destruct (step_effect l s s' (run_inv ls s Hrun) Hstep)
      as [(Hq & He & HJ)|(Hnil & job & [(Hq & He & HJ)|(Hq & He & HJ)])].
    + exists taken. rewrite Hq, He, HJ, app_assoc. done.
    + exists (taken ++ [job]). rewrite Hnil, Hq, He, HJ, app_nil_r.
      rewrite <- app_assoc. split; [done|].
      rewrite HP, <- app_assoc. apply Permutation_app_head.
      symmetry. apply Permutation_cons_append.
    + exists taken. rewrite Hnil, Hq, He, app_nil_r. split; [done|].
      rewrite HP, HJ, <- app_assoc. apply Permutation_app_head.
      simpl. done.
Qed.

(** X1. Jobs leave the queue in the order they were enqueued: in every
    state the queue is the tail of the sequence of jobs handed to
    [enqueue_job], and the jobs before that tail are exactly the ones that
    have run or are running. *)
Theorem jobs_dequeued_in_fifo_order ls s :
  run ls process_init = Ok s ->
  exists taken,
    enqueued_by ls = taken ++ _job_queue (pool s) /\
    taken ≡ₚ executed s ++ jobs_in_execution (pool s).
Proof. apply queue_is_tail. Qed.

(** *** The worker count *)

Lemma step_started l s s' :
  step l s = Ok s' -> started s = true ->
  started s' = true /\ _num_workers (pool s') = _num_workers (pool s).
Proof.
  intros Hstep Hst. destruct l as [n|job| | | |i]; simpl in Hstep.
  - rewrite Hst in Hstep. discriminate.
  - injection Hstep as <-. done.
  - apply bind_Ok in Hstep as (p' & Hw & [= <-]). unfold wait in Hw.
    destruct (_num_jobs (pool s) =? 0); [|discriminate].
    injection Hw as <-. done.
  - injection Hstep as <-. done.
  - destruct (_running (pool s)); [discriminate|].
    apply bind_Ok in Hstep as (p' & Hj & [= <-]).
    apply terminate_join_Ok in Hj as [_ Hn]. done.
  - apply bind_Ok in Hstep as ([p' done] & Hw & [= <-]). simpl.
    apply work_loop_Ok in Hw as (ws & w & _ & _ & Hw).
    destruct w as [|job|]; [| |done].
    + destruct Hw as (_ & [(_ & _ & job & rest & _ & ->)|(_ & ->)]); done.
    + destruct Hw as (_ & ->). done.
Qed.

Lemma run_started ls s s' :
  run ls s = Ok s' -> started s = true ->
  started s' = true /\ _num_workers (pool s') = _num_workers (pool s).
Proof.
  revert s. induction ls as [|l ls IH]; intros s Hrun Hst.
  - injection Hrun as <-. done.
  - simpl in Hrun. apply bind_Ok in Hrun as (s1 & Hstep & Hrun).
    destruct (step_started l s s1 Hstep Hst) as [Hst1 Hn1].
    destruct (IH s1 Hrun Hst1) as [Hst' Hn']. split; congruence.
Qed.

(** X2. The worker count is fixed by [start]: whatever is done with the
    pool afterwards (jobs, waits, [terminate()], further calls of [start],
    which are refused), [num_workers()] returns the argument of [start]. *)
Theorem num_workers_fixed_by_start (n : Z) ls s s' :
  run (L_start n :: ls) s = Ok s' -> num_workers (pool s') = n.
Proof.
  intros Hrun. simpl in Hrun. apply bind_Ok in Hrun as (s1 & Hstart & Hrun).
  destruct (started s); [discriminate|].
  destruct ((0 <=? n) && (n <? UINT32_MOD)); [|discriminate].
  injection Hstart as <-.
  destruct (run_started ls _ s' Hrun eq_refl) as [_ Hn]. exact Hn.
Qed.

Lemma step_num_workers_le l s s' (b : Z) :
  pool_inv s -> step l s = Ok s' ->
  _num_workers (pool s') <= b -> 0 <= b -> _num_workers (pool s) <= b.
Proof.
  intros Hinv Hstep Hle Hb. destruct (started s) eqn:Hst.
  - destruct (step_started l s s' Hstep Hst) as [_ Hn]. lia.
  - destruct (inv_not_started s Hinv Hst) as (_ & _ & Hn & _). lia.
Qed.

(** *** A pool with at most one worker *)

Lemma jobs_in_execution_length s :
  pool_inv s ->
  (length (jobs_in_execution (pool s)) <= Z.to_nat (_num_workers (pool s)))%nat.
Proof.
  intros Hinv. unfold jobs_in_execution.
  destruct (_workers (pool s)) as [ws|] eqn:Hws; [|simpl; lia].
  rewrite <- (inv_workers s Hinv ws Hws). clear.
  induction ws as [|w ws IH]; simpl; [lia|].
  rewrite length_app. destruct w; simpl; lia.
Qed.

Lemma short_permutation (l1 l2 : list Job) :
  (length l1 <= 1)%nat -> l1 ≡ₚ l2 -> l1 = l2.
Proof.
  intros Hlen HP. destruct l1 as [|a [|b l1]]; simpl in Hlen; [| |lia].
  - apply Permutation_nil_l in HP. done.
  - apply Permutation_singleton_l in HP. done.
Qed.

Lemma single_worker_order ls s :
  run ls process_init = Ok s ->
  _num_workers (pool s) <= 1 ->
  executed s ++ jobs_in_execution (pool s) ++ _job_queue (pool s)
  = enqueued_by ls.
Proof.
  revert ls s. apply (run_snoc_ind (fun ls s =>
    _num_workers (pool s) <= 1 ->
    executed s ++ jobs_in_execution (pool s) ++ _job_queue (pool s)
    = enqueued_by ls)).
  - done.
  - intros ls l s s' Hrun IH Hstep Hle.
    pose proof (run_inv ls s Hrun) as Hinv.
    pose proof (pool_inv_step l s s' Hinv Hstep) as Hinv'.
    pose proof (step_num_workers_le l s s' 1 Hinv Hstep Hle ltac:(lia)) as Hle0.
    specialize (IH Hle0).
    pose proof (jobs_in_execution_length s Hinv) as HJ0.
    pose proof (jobs_in_execution_length s' Hinv') as HJ1.
    assert (length (jobs_in_execution (pool s)) <= 1)%nat as HL0 by lia.
    assert (length (jobs_in_execution (pool s')) <= 1)%nat as HL1 by lia.
    rewrite enqueued_by_app, <- IH.
    destruct (step_effect l s s' Hinv Hstep)
      as [(Hq & He & HJ)|(Hnil & job & [(Hq & He & HJ)|(Hq & He & HJ)])].
    + apply short_permutation in HJ; [|exact HL1].
      rewrite Hq, He, HJ, <- !app_assoc. done.
    + apply short_permutation in HJ; [|exact HL1].
      rewrite HJ in HL1. simpl in HL1.
      destruct (jobs_in_execution (pool s)); [|simpl in HL1; lia].
      rewrite Hnil, Hq, He, HJ, app_nil_r. done.
    + apply short_permutation in HJ; [|exact HL0].
      rewrite HJ in HL0. simpl in HL0.
      destruct (jobs_in_execution (pool s')); [|simpl in HL0; lia].
      rewrite Hnil, Hq, He, HJ, app_nil_r, <- app_assoc. done.
Qed.

(** X3. With a single worker the jobs end in the order they were enqueued:
    the jobs that have ended, then the one that is running, then the queue,
    read in this order, are the sequence handed to [enqueue_job]. *)
Theorem single_worker_runs_jobs_in_order ls s :
  run ls process_init = Ok s ->
  num_workers (pool s) = 1 ->
  executed s ++ jobs_in_execution (pool s) ++ _job_queue (pool s)
  = enqueued_by ls.
Proof.
  intros Hrun Hone. apply single_worker_order; [exact Hrun|].
  unfold num_workers in Hone. lia.
Qed.

(** X4. A pool without workers (never started, or started with zero
    workers) accepts jobs and runs none of them: the queue holds every job
    that was enqueued, in order, and while it holds at least one job and
    fewer than 2^32, [wait()] cannot return. *)
Theorem zero_workers_run_nothing ls s :
  run ls process_init = Ok s ->
  num_workers (pool s) = 0 ->
  executed s = [] /\
  _job_queue (pool s) = enqueued_by ls /\
  (0 < Z.of_nat (length (enqueued_by ls)) < UINT32_MOD ->
   step L_wait s = Blocked).
Proof.
  intros Hrun Hzero. unfold num_workers in Hzero.
  pose proof (run_inv ls s Hrun) as Hinv.
  pose proof (single_worker_order ls s Hrun ltac:(lia)) as Horder.
  pose proof (jobs_in_execution_length s Hinv) as HJ. rewrite Hzero in HJ.
  destruct (jobs_in_execution (pool s)) eqn:HJe; [|simpl in HJ; lia].
  assert (He : executed s = []).
  { destruct (executed s) eqn:Hex; [done|].
    exfalso. apply (inv_executed s Hinv); [rewrite Hex; done | exact Hzero]. }
  rewrite He in Horder. simpl in Horder.
  split; [done|]. split; [done|].
  intros Hlen. simpl. unfold wait.
  rewrite (inv_num_jobs s Hinv).
  unfold outstanding, queue_length, mid_execution. rewrite HJe, Horder.
  simpl length. rewrite Z.add_0_r, wrap32_small by lia.
  destruct (Z.of_nat (length (enqueued_by ls)) =? 0) eqn:H0;
    [apply Z.eqb_eq in H0; lia | done].
Qed.

End pool_order.

Section pool_safety.

Context {Job : Type}.
Implicit Types (p : thread_pool Job) (s : process Job) (l : label Job).
Implicit Types (ws : list (worker Job)) (w : worker Job).

(** *** Waiting for the jobs *)

(** X5. When [wait()] returns, and fewer than 2^32 jobs are outstanding,
    the queue is empty, no job is running, and the jobs that have run to
    their end are the jobs that were enqueued, each of them once. *)
Theorem wait_returns_when_all_jobs_ended ls s :
  run ls process_init = Ok s ->
  outstanding (pool s) < UINT32_MOD ->
  step L_wait s = Ok s ->
  _job_queue (pool s) = [] /\
  jobs_in_execution (pool s) = [] /\
  executed s ≡ₚ enqueued_by ls.
Proof.
  intros Hrun Hlt Hwait.
  pose proof (run_inv ls s Hrun) as Hinv.
  pose proof (wait_returns_all_executed ls s Hrun Hlt Hwait) as HP.
  simpl in Hwait. unfold wait in Hwait.
  destruct (_num_jobs (pool s) =? 0) eqn:Hn; [|discriminate].
  apply Z.eqb_eq in Hn. rewrite (inv_num_jobs s Hinv) in Hn.
  rewrite wrap32_small in Hn
    by (unfold outstanding, queue_length, mid_execution in *; lia).
  unfold outstanding, queue_length, mid_execution in Hn.
  split; [|split; [|exact HP]].
  - destruct (_job_queue (pool s)); [done | simpl in Hn; lia].
  - destruct (jobs_in_execution (pool s)); [done | simpl in Hn; lia].
Qed.

(** X6. [finish()] loses no job: when its [wait()] has returned with fewer
    than 2^32 jobs outstanding, every enqueued job has run once, and nothing
    more runs while its [terminate()] shuts the workers down. *)
Theorem finish_runs_every_job ls s ls' s' :
  run ls process_init = Ok s ->
  outstanding (pool s) < UINT32_MOD ->
  Forall drain_label ls' ->
  run (L_wait :: L_terminate_flag :: ls') s = Ok s' ->
  executed s' = executed s /\
  executed s' ≡ₚ enqueued_by ls /\
  _job_queue (pool s') = [] /\
  jobs_in_execution (pool s') = [] /\
  _running (pool s') = false.
Proof.
  intros Hrun Hlt Hls' Hfin.
  change (run (L_wait :: L_terminate_flag :: ls') s)
    with (bind (step L_wait s) (run (L_terminate_flag :: ls'))) in Hfin.
  apply bind_Ok in Hfin as (s0 & Hwait & Hterm).
  assert (s0 = s) as ->.
  { simpl in Hwait. apply bind_Ok in Hwait as (p0 & Hw & [= <-]).
    unfold wait in Hw. destruct (_num_jobs (pool s) =? 0); [|discriminate].
    injection Hw as <-. destruct s; done. }
  pose proof (run_inv ls s Hrun) as Hinv.
  pose proof (wait_returns_all_executed ls s Hrun Hlt Hwait) as HP.
  simpl in Hwait. unfold wait in Hwait.
  destruct (_num_jobs (pool s) =? 0) eqn:Hn; [|discriminate].
  apply Z.eqb_eq in Hn. rewrite (inv_num_jobs s Hinv) in Hn.
  rewrite wrap32_small in Hn
    by (unfold outstanding, queue_length, mid_execution in *; lia).
  unfold outstanding, queue_length, mid_execution in Hn.
  assert (Hq : _job_queue (pool s) = [])
    by (destruct (_job_queue (pool s)); [done | simpl in Hn; lia]).
  assert (HJ : jobs_in_execution (pool s) = [])
    by (destruct (jobs_in_execution (pool s)); [done | simpl in Hn; lia]).
  simpl in Hterm.
  set (s1 := with_pool s (terminate_flag (pool s))) in *.
  assert (Hinv1 : pool_inv s1)
    by (apply (pool_inv_step L_terminate_flag s); done).
  destruct (drain_run ls' s1 s' Hinv1 eq_refl Hls' Hterm)
    as (Hr' & Hq' & done & He & HPd).
  change (jobs_in_execution (pool s1)) with (jobs_in_execution (pool s)) in HPd.
  change (executed s1) with (executed s) in He.
  change (_job_queue (pool s1)) with (_job_queue (pool s)) in Hq'.
  rewrite HJ in HPd. apply Permutation_nil_r in HPd.
  apply app_eq_nil in HPd as [-> HJ'].
  rewrite app_nil_r in He.
  split; [exact He|]. split; [rewrite He; exact HP|].
  split; [congruence|]. split; [exact HJ'|exact Hr'].
Qed.

(** *** When a worker can fail *)

Lemma work_loop_fault i s f :
  reachable s -> step (L_work_loop i) s = Fault f ->
  f = AssertionFailed /\
  _running (pool s) = true /\
  _job_queue (pool s) = [] /\
  jobs_in_execution (pool s) <> [].
Proof.
  intros Hs Hf. pose proof (reachable_inv s Hs) as Hinv.
  simpl in Hf. unfold work_loop in Hf.
  destruct (_workers (pool s)) as [ws|] eqn:Hws; [|discriminate].
  destruct (ws !! i) as [[|job|]|]; try discriminate.
  unfold wake in Hf. destruct (_running (pool s)) eqn:Hr; simpl in Hf;
    [|discriminate].
  destruct (_num_jobs (pool s) =? 0) eqn:Hn; simpl in Hf; [discriminate|].
  apply Z.eqb_neq in Hn.
  destruct (_job_queue (pool s)) as [|job rest] eqn:Hq; [|discriminate].
  injection Hf as <-. repeat split; try done.
  intros HJ. apply Hn. rewrite (inv_num_jobs s Hinv).
  unfold outstanding, queue_length, mid_execution. rewrite Hq, HJ.
  reflexivity.
Qed.

Lemma running_job_exists ws :
  concat (map running_job ws) <> [] ->
  exists j job, ws !! j = Some (Executing job).
Proof.
  induction ws as [|w ws IH]; intros HJ; [done|].
  destruct w as [|job|].
  - destruct (IH HJ) as (j & job & Hj). exists (S j), job. exact Hj.
  - exists 0%nat, job. done.
  - destruct (IH HJ) as (j & job & Hj). exists (S j), job. exact Hj.
Qed.

(** X7. The only way a worker stops the process is the assertion of line
    194, and it fails only in a running pool whose queue is empty while
    another worker is still running a job. *)
Theorem worker_fails_only_beside_a_running_job i s f :
  reachable s -> step (L_work_loop i) s = Fault f ->
  f = AssertionFailed /\
  _running (pool s) = true /\
  _job_queue (pool s) = [] /\
  exists ws j job,
    _workers (pool s) = Some ws /\ ws !! i = Some Waiting /\
    j <> i /\ ws !! j = Some (Executing job).
Proof.
  intros Hs Hf.
  destruct (work_loop_fault i s f Hs Hf) as (-> & Hr & Hq & HJ).
  repeat split; try done.
  simpl in Hf. unfold work_loop in Hf. unfold jobs_in_execution in HJ.
  destruct (_workers (pool s)) as [ws|] eqn:Hws; [|discriminate].
  exists ws.
  assert (Hi : ws !! i = Some Waiting).
  { destruct (ws !! i) as [[|job|]|]; try discriminate. done. }
  destruct (running_job_exists ws HJ) as (j & job & Hj). exists j, job.
  repeat split; try done. intros ->. congruence.
Qed.

(** X8. In a pool with one worker no step of the worker ever stops the
    process: the assertion of line 194 always holds. *)
Theorem single_worker_never_fails i s f :
  reachable s -> num_workers (pool s) = 1 ->
  step (L_work_loop i) s <> Fault f.
Proof.
  intros Hs Hone Hf.
  destruct (work_loop_fault i s f Hs Hf) as (-> & _).
  exact (single_worker_assertion_holds s i Hs Hone Hf).
Qed.

(** *** When [terminate()] can fail *)

Lemma join_loop_in_bounds ws i count f :
  (i + count <= length ws)%nat -> join_loop (Some ws) i count <> Fault f.
Proof.
  revert i. induction count as [|count IH]; intros i Hlen; [done|].
  simpl. unfold join.
  destruct (ws !! i) as [w|] eqn:Hi.
  - destruct w; simpl; try done. apply IH. lia.
  - apply lookup_ge_None in Hi. lia.
Qed.

Lemma join_loop_all_exited ws i count :
  (forall k, (i <= k < i + count)%nat -> ws !! k = Some Exited) ->
  join_loop (Some ws) i count = Ok tt.
Proof.
  revert i. induction count as [|count IH]; intros i H; [done|].
  simpl. unfold join. rewrite (H i) by lia. simpl. apply IH.
  intros k Hk. apply H. lia.
Qed.

(** X9. The joins of [terminate()] never index past the worker array, and
    they stop the process in one case only: the array pointer is null while
    [_num_workers] is not zero, that is, the pool was started with workers
    and has been terminated before. *)
Theorem terminate_fails_only_when_repeated s f :
  reachable s -> step L_terminate_join s = Fault f ->
  f = NullDereference /\
  _workers (pool s) = None /\
  _num_workers (pool s) <> 0 /\
  started s = true.
Proof.
  intros Hs Hf. pose proof (reachable_inv s Hs) as Hinv. simpl in Hf.
  destruct (_running (pool s)); [discriminate|].
  unfold terminate_join in Hf.
  destruct (_workers (pool s)) as [ws|] eqn:Hws.
  - exfalso.
    destruct (join_loop (Some ws) 0 (Z.to_nat (_num_workers (pool s))))
      as [[]| |f'] eqn:Hloop; try discriminate.
    apply (join_loop_in_bounds ws 0 _ f') in Hloop; [done|].
    rewrite (inv_workers s Hinv ws Hws). lia.
  - destruct (Z.to_nat (_num_workers (pool s))) as [|count] eqn:Hc;
      [discriminate|].
    simpl in Hf. injection Hf as <-.
    assert (Hn : _num_workers (pool s) <> 0) by lia.
    repeat split; try done.
    destruct (started s) eqn:Hst; [done|].
    destruct (inv_not_started s Hinv Hst) as (_ & _ & H0 & _). done.
Qed.

(** X10. On a pool without workers [terminate()] is safe and can be
    repeated: it only clears the flag and nulls the pointer, and a second
    [terminate()] (or the destructor) leaves that state as it is. *)
Theorem terminate_idempotent_without_workers s :
  num_workers (pool s) = 0 ->
  let s' := with_pool s (ThreadPool 0 (_num_jobs (pool s)) None
                                    (_job_queue (pool s)) false) in
  run terminate s = Ok s' /\
  run terminate s' = Ok s' /\
  run destructor s' = Ok s'.
Proof.
  intros Hzero s'. subst s'.
  destruct s as [[nw nj ws q r] ex st]. unfold num_workers in Hzero.
  simpl in Hzero. subst nw. repeat split.
Qed.

(** *** [terminate()] comes to its end *)

Lemma run_cons l (ls : list (label Job)) s :
  run (l :: ls) s = bind (step l s) (run ls).
Proof. reflexivity. Qed.

Lemma exit_schedule_runs (suf pre : list (worker Job)) s :
  _running (pool s) = false ->
  _workers (pool s) = Some (pre ++ suf) ->
  exists s',
    run (exit_schedule (length pre) suf) s = Ok s' /\
    _running (pool s') = false /\
    _workers (pool s') = Some (pre ++ replicate (length suf) Exited) /\
    _num_workers (pool s') = _num_workers (pool s) /\
    _job_queue (pool s') = _job_queue (pool s) /\
    executed s' = executed s ++ concat (map running_job suf).
Proof.
  revert pre s. induction suf as [|w suf IH]; intros pre s Hr Hws.
  - exists s. simpl. rewrite !app_nil_r in *. done.
  - assert (Hi : (pre ++ w :: suf) !! length pre = Some w)
      by (apply list_lookup_middle; done).
    assert (Hins : forall w',
      <[length pre := w']> (pre ++ w :: suf) = (pre ++ [w']) ++ suf).
    { intros w'. rewrite insert_app_r_alt by lia.
      rewrite Nat.sub_diag. simpl. rewrite <- app_assoc. done. }
    (* the worker, once it waits, leaves the loop *)
    assert (Hexit : forall s0,
      _running (pool s0) = false ->
      _workers (pool s0) = Some (pre ++ Waiting :: suf) ->
      exists s1,
        step (L_work_loop (length pre)) s0 = Ok s1 /\
        _running (pool s1) = false /\
        _workers (pool s1) = Some ((pre ++ [Exited]) ++ suf) /\
        _num_workers (pool s1) = _num_workers (pool s0) /\
        _job_queue (pool s1) = _job_queue (pool s0) /\
        executed s1 = executed s0).
    { intros s0 Hr0 Hws0. eexists. simpl.
      rewrite (work_loop_draining (length pre) (pool s0) _ Hr0 Hws0)
        by (apply list_lookup_middle; done).
      simpl. split; [reflexivity|]. simpl.
      rewrite insert_app_r_alt by lia. rewrite Nat.sub_diag. simpl.
      rewrite <- app_assoc. done. }
    destruct w as [|job|].
    + destruct (Hexit s Hr Hws) as (s1 & Hstep & Hr1 & Hws1 & Hn1 & Hq1 & He1).
      destruct (IH (pre ++ [Exited]) s1 Hr1 Hws1)
        as (s' & Hrun & Hr' & Hws' & Hn' & Hq' & He').
      rewrite length_app in Hrun. simpl in Hrun.
      rewrite Nat.add_1_r in Hrun.
      exists s'. cbn [exit_schedule exit_steps app].
      rewrite run_cons, Hstep. cbn [bind].
      split; [exact Hrun|]. split; [exact Hr'|].
      split; [rewrite Hws', <- app_assoc; done|].
      split; [congruence|]. split; [congruence|].
      rewrite He', He1. reflexivity.
    + (* the running job ends first *)
      set (s0 := Process (set_worker (length pre) Waiting (pool s)
                            (pre ++ Executing job :: suf)
                            (_job_queue (pool s))
                            (wrap32 (_num_jobs (pool s) - 1)))
                         (executed s ++ [job]) (started s)).
      assert (Hstep0 : step (L_work_loop (length pre)) s = Ok s0).
      { simpl. unfold work_loop. rewrite Hws, Hi. reflexivity. }
      assert (Hws0 : _workers (pool s0) = Some (pre ++ Waiting :: suf)).
      { simpl. rewrite insert_app_r_alt by lia. rewrite Nat.sub_diag. done. }
      destruct (Hexit s0 Hr Hws0)
        as (s1 & Hstep & Hr1 & Hws1 & Hn1 & Hq1 & He1).
      destruct (IH (pre ++ [Exited]) s1 Hr1 Hws1)
        as (s' & Hrun & Hr' & Hws' & Hn' & Hq' & He').
      rewrite length_app in Hrun. simpl in Hrun.
      rewrite Nat.add_1_r in Hrun.
      exists s'. cbn [exit_schedule exit_steps app].
      rewrite run_cons, Hstep0. cbn [bind].
      rewrite run_cons, Hstep. cbn [bind].
      split; [exact Hrun|]. split; [exact Hr'|].
      split; [rewrite Hws', <- app_assoc; done|].
      change (_num_workers (pool s0)) with (_num_workers (pool s)) in Hn1.
      change (_job_queue (pool s0)) with (_job_queue (pool s)) in Hq1.
      change (executed s0) with (executed s ++ [job]) in He1.
      split; [congruence|]. split; [congruence|].
      rewrite He', He1. simpl. rewrite <- app_assoc. done.
    + destruct (IH (pre ++ [Exited]) s Hr)
        as (s' & Hrun & Hr' & Hws' & Hn' & Hq' & He').
      { rewrite Hws, <- app_assoc. done. }
      rewrite length_app in Hrun. simpl in Hrun.
      rewrite Nat.add_1_r in Hrun.
      exists s'. cbn [exit_schedule exit_steps app].
      split; [exact Hrun|]. split; [exact Hr'|].
      split; [rewrite Hws', <- app_assoc; done|].
      split; [congruence|]. split; [congruence|].
      rewrite He'. reflexivity.
Qed.

(** X11. [terminate()] can always come to its end on a pool that has not
    been terminated before: once the flag is cleared every worker can leave
    its loop (a running job is brought to its end first), and then the joins
    return. The jobs that were running have ended, in the order of the
    workers, the queue is left as it was, and the array pointer is null. *)
Theorem terminate_completes s :
  reachable s ->
  (_workers (pool s) = None -> _num_workers (pool s) = 0) ->
  exists s',
    run (L_terminate_flag :: pool_exit_schedule (pool s) ++ [L_terminate_join])
        s = Ok s' /\
    _workers (pool s') = None /\
    _running (pool s') = false /\
    _job_queue (pool s') = _job_queue (pool s) /\
    executed s' = executed s ++ jobs_in_execution (pool s).
Proof.
  intros Hs Hlive. pose proof (reachable_inv s Hs) as Hinv.
  change (run (L_terminate_flag :: ?ls) s)
    with (run ls (with_pool s (terminate_flag (pool s)))).
  set (s1 := with_pool s (terminate_flag (pool s))).
  unfold pool_exit_schedule, jobs_in_execution.
  destruct (_workers (pool s)) as [ws|] eqn:Hws.
  - destruct (exit_schedule_runs ws [] s1 eq_refl)
      as (s2 & Hrun & Hr2 & Hws2 & Hn2 & Hq2 & He2); [exact Hws|].
    simpl in Hrun, Hws2.
    assert (Hjoin : terminate_join (pool s2)
                    = Ok (ThreadPool (_num_workers (pool s2))
                            (_num_jobs (pool s2)) None (_job_queue (pool s2))
                            (_running (pool s2)))).
    { unfold terminate_join. rewrite Hws2, join_loop_all_exited; [done|].
      intros k Hk. apply lookup_replicate. split; [done|].
      rewrite Hn2 in Hk.
      change (_num_workers (pool s1)) with (_num_workers (pool s)) in Hk.
      rewrite <- (inv_workers s Hinv ws Hws) in Hk. lia. }
    eexists. rewrite run_app, Hrun. simpl. rewrite Hr2, Hjoin. simpl.
    split; [reflexivity|]. simpl. repeat split; try done.
  - specialize (Hlive eq_refl).
    eexists. simpl. unfold terminate_join. simpl.
    rewrite Hws, Hlive. simpl. split; [reflexivity|]. simpl.
    rewrite app_nil_r. done.
Qed.

End pool_safety.

(** * Facts about [run_in_parallel] *)

Section loops.

Lemma wrap64_small z : 0 <= z < UINT64_MOD -> wrap64 z = z.
Proof. unfold wrap64. apply Z.mod_small. Qed.

(** The element loop applies [func] to [n] consecutive positions. *)
Lemma invoke_loop_seqZ (fuel : nat) (it n : Z) :
  0 <= n -> (Z.to_nat n <= fuel)%nat ->
  invoke_loop fuel it (it + n) = Some (seqZ it n).
Proof.
  revert it n. induction fuel as [|fuel IH]; intros it n Hn Hfuel.
  - assert (n = 0) as -> by lia. simpl.
    rewrite Z.add_0_r, Z.eqb_refl. reflexivity.
  - simpl. destruct (it =? it + n) eqn:Heq.
    + apply Z.eqb_eq in Heq. assert (n = 0) as -> by lia. reflexivity.
    + apply Z.eqb_neq in Heq.
      replace (it + n) with ((it + 1) + (n - 1)) by lia.
      rewrite IH by lia. simpl. rewrite (seqZ_cons it n) by lia.
      reflexivity.
Qed.

Lemma chunk_positions_seqZ (a b : Z) :
  a <= b -> chunk_positions (Chunk a b) = seqZ a (b - a).
Proof.
  intros Hab. unfold chunk_positions, chunk_body. simpl.
  replace b with (a + (b - a)) at 2 by lia.
  rewrite invoke_loop_seqZ by lia. reflexivity.
Qed.

Context (begin range_size chunk_size : Z).
Hypothesis chunk_size_pos : 0 < chunk_size.
Hypothesis range_size_fits : range_size <= PTRDIFF_MAX.
Hypothesis chunk_size_small : chunk_size < range_size.

(** With [r] chunks left, the first of them chunk [k], the loop of lines
    263-274 enqueues exactly the chunks [k], ..., [k + r - 1]. *)
Lemma split_loop_from (r fuel : nat) (k : Z) :
  0 <= k -> (0 < r)%nat -> (r <= fuel)%nat ->
  (k + Z.of_nat r - 1) * chunk_size < range_size ->
  range_size <= (k + Z.of_nat r) * chunk_size ->
  split_loop fuel begin range_size chunk_size
             (k * chunk_size) (Z.min ((k + 1) * chunk_size) range_size)
  = Some (map (nth_chunk begin range_size chunk_size) (seqZ k (Z.of_nat r))).
Proof.
  revert fuel k. induction r as [|r IH]; intros fuel k Hk Hr Hfuel Hlo Hhi;
    [lia|].
  destruct fuel as [|fuel]; [lia|]. simpl split_loop.
  assert (k * chunk_size < range_size) by nia.
  destruct (k * chunk_size =? range_size) eqn:Heq;
    [apply Z.eqb_eq in Heq; lia|].
  rewrite (seqZ_cons k) by lia. simpl map.
  destruct r as [|r].
  - (* the last chunk *)
    assert (Z.min ((k + 1) * chunk_size) range_size = range_size) as ->
      by nia.
    destruct fuel; simpl; rewrite Z.eqb_refl; simpl;
      unfold nth_chunk; repeat f_equal; nia.
  - assert (Hnext : (k + 1) * chunk_size < range_size) by nia.
    assert (Z.min ((k + 1) * chunk_size) range_size = (k + 1) * chunk_size)
      as Hmin by lia.
    rewrite !Hmin.
    rewrite wrap64_small by (unfold PTRDIFF_MAX, UINT64_MOD in *; lia).
    replace ((k + 1) * chunk_size + chunk_size)
      with ((k + 1 + 1) * chunk_size) by lia.
    rewrite (IH fuel (k + 1)) by lia.
    simpl. unfold Z.succ. replace (Z.pred (Z.of_nat (S (S r))))
      with (Z.of_nat (S r)) by lia.
    f_equal. f_equal. unfold nth_chunk. rewrite Hmin. reflexivity.
Qed.

(** The chunks [k], ..., [k + r - 1] cover the positions from the start of
    chunk [k] to the end of the range, each once and in order. *)
Lemma partition_positions_from (r : nat) (k : Z) :
  0 <= k -> (0 < r)%nat ->
  (k + Z.of_nat r - 1) * chunk_size < range_size ->
  range_size <= (k + Z.of_nat r) * chunk_size ->
  concat (map chunk_positions
            (map (nth_chunk begin range_size chunk_size) (seqZ k (Z.of_nat r))))
  = seqZ (begin + k * chunk_size) (range_size - k * chunk_size).
Proof.
  revert k. induction r as [|r IH]; intros k Hk Hr Hlo Hhi; [lia|].
  rewrite (seqZ_cons k) by lia. simpl map. simpl concat.
  unfold nth_chunk at 1. rewrite chunk_positions_seqZ by nia.
  destruct r as [|r].
  - simpl. rewrite app_nil_r. f_equal. nia.
  - unfold Z.succ. replace (Z.pred (Z.of_nat (S (S r))))
      with (Z.of_nat (S r)) by lia.
    rewrite IH by lia.
    assert (Z.min ((k + 1) * chunk_size) range_size = (k + 1) * chunk_size)
      as -> by nia.
    replace (begin + (k + 1) * chunk_size - (begin + k * chunk_size))
      with chunk_size by lia.
    replace (range_size - k * chunk_size)
      with (chunk_size + (range_size - (k + 1) * chunk_size)) by lia.
    rewrite seqZ_app by nia. f_equal. f_equal. lia.
Qed.

Lemma chunk_count_bounds :
  1 < chunk_count range_size chunk_size /\
  (chunk_count range_size chunk_size - 1) * chunk_size < range_size /\
  range_size <= chunk_count range_size chunk_size * chunk_size.
Proof.
  unfold chunk_count.
  pose proof (Z.div_mod (range_size + chunk_size - 1) chunk_size ltac:(lia)).
  pose proof (Z.mod_pos_bound (range_size + chunk_size - 1) chunk_size
                ltac:(lia)).
  nia.
Qed.

Lemma split_loop_partition :
  split_loop (Z.to_nat range_size) begin range_size chunk_size 0 chunk_size
  = Some (partition begin range_size chunk_size).
Proof.
  destruct chunk_count_bounds as (Hn & Hlo & Hhi).
  unfold partition.
  pose proof (split_loop_from (Z.to_nat (chunk_count range_size chunk_size))
                (Z.to_nat range_size) 0) as H.
  rewrite Z2Nat.id in H by lia.
  replace (Z.min ((0 + 1) * chunk_size) range_size) with chunk_size in H
    by lia.
  apply H; try lia. nia.
Qed.

Lemma partition_positions :
  concat (map chunk_positions (partition begin range_size chunk_size))
  = seqZ begin range_size.
Proof.
  destruct chunk_count_bounds as (Hn & Hlo & Hhi).
  unfold partition.
  pose proof (partition_positions_from
                (Z.to_nat (chunk_count range_size chunk_size)) 0) as H.
  rewrite Z2Nat.id in H by lia.
  rewrite H by lia. f_equal; lia.
Qed.

Lemma partition_length :
  Z.of_nat (length (partition begin range_size chunk_size))
  = chunk_count range_size chunk_size.
Proof.
  destruct chunk_count_bounds as (Hn & _).
  unfold partition. rewrite length_map, length_seqZ. lia.
Qed.

Lemma partition_lookup (k : nat) (job : chunk) :
  partition begin range_size chunk_size !! k = Some job ->
  Z.of_nat k < chunk_count range_size chunk_size /\
  job = nth_chunk begin range_size chunk_size (Z.of_nat k).
Proof.
  unfold partition. rewrite list_lookup_fmap.
  destruct (seqZ 0 (chunk_count range_size chunk_size) !! k) as [z|] eqn:Hz;
    [|discriminate].
  apply lookup_seqZ in Hz as [-> Hlt]. simpl. intros [= <-]. done.
Qed.

End loops.

Section run_in_parallel_facts.

Context (p : thread_pool chunk) (begin end_ : Z).
Context (schedule_factor min_chunk_size : Z).

Let range_size : Z := end_ - begin.
Let num_chunks : Z := wrap64 (schedule_factor * num_workers p).
Let chunk_size : Z := clamped_chunk_size range_size num_chunks min_chunk_size.

Lemma range_size_wrap64 :
  0 <= range_size <= PTRDIFF_MAX -> wrap64 (end_ - begin) = range_size.
Proof.
  intros H. apply wrap64_small. unfold PTRDIFF_MAX, UINT64_MOD in *.
  subst range_size. lia.
Qed.

Lemma clamped_chunk_size_max :
  chunk_size = Z.max (range_size / num_chunks) min_chunk_size.
Proof.
  subst chunk_size. unfold clamped_chunk_size.
  destruct (range_size / num_chunks <? min_chunk_size) eqn:H.
  - apply Z.ltb_lt in H. lia.
  - apply Z.ltb_ge in H. lia.
Qed.

(** C8. When [schedule_factor] or [min_chunk_size] is zero the assertion of
    line 240 fails: the call stops there, whatever the pool and the range
    are, before the size of the range is taken, and the calling thread has
    applied [func] to nothing, enqueued nothing and not waited. *)
Theorem run_in_parallel_asserts :
  schedule_factor = 0 \/ min_chunk_size = 0 ->
  run_in_parallel p begin end_ schedule_factor min_chunk_size
  = ([], Aborted AssertionFailed).
Proof.
  intros [-> | ->]; unfold run_in_parallel; simpl; [reflexivity|].
  rewrite orb_true_r. reflexivity.
Qed.

(** C10. On a pool whose [num_workers()] is zero, a call with a range that
    is not empty and with arguments that pass the assertion divides
    [range_size] by a [num_chunks] of zero (line 246): nothing checks the
    divisor. *)
Theorem run_in_parallel_zero_workers :
  num_workers p = 0 ->
  schedule_factor <> 0 -> min_chunk_size <> 0 ->
  0 < end_ - begin <= PTRDIFF_MAX ->
  run_in_parallel p begin end_ schedule_factor min_chunk_size
  = ([], Aborted DivisionByZero).
Proof.
  intros Hnw Hsf Hmcs Hrange. unfold run_in_parallel.
  apply Z.eqb_neq in Hsf, Hmcs. rewrite Hsf, Hmcs. simpl.
  rewrite range_size_wrap64 by (subst range_size; lia).
  destruct (range_size =? 0) eqn:H0;
    [apply Z.eqb_eq in H0; subst range_size; lia|].
  rewrite Hnw, Z.mul_0_r. reflexivity.
Qed.

(** The call returns at once on an empty range, for any pool. *)
Lemma run_in_parallel_empty :
  schedule_factor <> 0 -> min_chunk_size <> 0 -> end_ = begin ->
  run_in_parallel p begin end_ schedule_factor min_chunk_size
  = ([], Returned).
Proof.
  intros Hsf Hmcs ->. unfold run_in_parallel.
  apply Z.eqb_neq in Hsf, Hmcs. rewrite Hsf, Hmcs. simpl.
  rewrite Z.sub_diag. reflexivity.
Qed.

Lemma run_in_parallel_unfold :
  schedule_factor <> 0 -> min_chunk_size <> 0 ->
  0 < range_size <= PTRDIFF_MAX -> num_chunks <> 0 ->
  run_in_parallel p begin end_ schedule_factor min_chunk_size
  = if range_size <=? chunk_size then
      match invoke_loop (Z.to_nat range_size) begin end_ with
      | Some positions => (map Invoke positions, Returned)
      | None => ([], OutOfFuel)
      end
    else
      match split_loop (Z.to_nat range_size) begin range_size chunk_size
                       0 chunk_size with
      | Some jobs => (map Enqueue jobs ++ [Wait], Returned)
      | None => ([], OutOfFuel)
      end.
Proof.
  intros Hsf Hmcs Hrange Hnc. unfold run_in_parallel.
  apply Z.eqb_neq in Hsf, Hmcs. rewrite Hsf, Hmcs. simpl.
  rewrite range_size_wrap64 by lia.
  destruct (range_size =? 0) eqn:H0; [apply Z.eqb_eq in H0; lia|].
  fold num_chunks. apply Z.eqb_neq in Hnc. rewrite Hnc.
  fold chunk_size. reflexivity.
Qed.

Lemma caller_steps_Invoke (positions : list Z) :
  caller_steps (map Invoke positions) = [] /\
  enqueued (map Invoke positions) = [] /\
  invoked (map Invoke positions) = positions.
Proof.
  unfold caller_steps, enqueued, invoked.
  induction positions as [|k ks (IH1 & IH2 & IH3)]; simpl; [done|].
  rewrite IH1, IH2, IH3. done.
Qed.

(** C7. The range is not empty and is no longer than the chunk size the
    call computes (the quotient raised to [min_chunk_size]). Then the
    calling thread applies [func] to the elements of the range, one after
    the other from [begin] to [end], and the call returns: it takes no step
    on the pool, so it enqueues no job and does not call [wait()]. *)
Theorem run_in_parallel_sequential :
  schedule_factor <> 0 -> min_chunk_size <> 0 ->
  0 < range_size <= PTRDIFF_MAX ->
  num_chunks <> 0 ->
  range_size <= chunk_size ->
  let r := run_in_parallel p begin end_ schedule_factor min_chunk_size in
  r = (map Invoke (seqZ begin range_size), Returned) /\
  invoked (fst r) = seqZ begin range_size /\
  enqueued (fst r) = [] /\
  caller_steps (fst r) = [] /\
  ~ In Wait (fst r).
Proof.
  intros Hsf Hmcs Hrange Hnc Hle r. subst r.
  rewrite run_in_parallel_unfold by assumption.
  apply Z.leb_le in Hle. rewrite Hle.
  replace end_ with (begin + range_size) by (subst range_size; lia).
  rewrite invoke_loop_seqZ by lia. simpl fst.
  destruct (caller_steps_Invoke (seqZ begin range_size)) as (H1 & H2 & H3).
  repeat split; try assumption.
  intros Hin. apply in_map_iff in Hin as (k & Hk & _). discriminate.
Qed.

(** C6. The range is longer than the chunk size the call computes, which
    is the quotient of [range_size] by [schedule_factor * num_workers()],
    raised to [min_chunk_size] when it is smaller. Then the call enqueues
    one job per chunk of the partition and waits. Chunk [k] starts at index
    [k * chunk_size], the next chunk starts where it ends, every chunk but
    the last has [chunk_size] elements, the last ends at the end of the
    range and has the [range_size - last_begin] elements that remain, at
    least one and at most [chunk_size]. Together the jobs apply [func] to
    every position of the range once and to no other position. *)
Theorem run_in_parallel_partitions :
  schedule_factor <> 0 -> is_uint64 min_chunk_size -> min_chunk_size <> 0 ->
  0 < range_size <= PTRDIFF_MAX ->
  num_chunks <> 0 ->
  chunk_size < range_size ->
  let jobs := partition begin range_size chunk_size in
  chunk_size = Z.max (range_size / num_chunks) min_chunk_size /\
  run_in_parallel p begin end_ schedule_factor min_chunk_size
  = (map Enqueue jobs ++ [Wait], Returned) /\
  Z.of_nat (length jobs) = chunk_count range_size chunk_size /\
  (forall (k : nat) (job : chunk),
     jobs !! k = Some job ->
     it job = begin + Z.of_nat k * chunk_size /\
     ((S k < length jobs)%nat -> chunk_length job = chunk_size) /\
     (S k = length jobs ->
      it_end job = end_ /\
      chunk_length job = range_size - Z.of_nat k * chunk_size /\
      0 < chunk_length job <= chunk_size)) /\
  (forall (k : nat) (job next : chunk),
     jobs !! k = Some job -> jobs !! (S k) = Some next ->
     it next = it_end job) /\
  concat (map chunk_positions jobs) = seqZ begin range_size.
Proof.
  intros Hsf Hmcs_u Hmcs Hrange Hnc Hlt jobs.
  assert (Hpos : 0 < chunk_size).
  { rewrite clamped_chunk_size_max. unfold is_uint64 in Hmcs_u. lia. }
  destruct (chunk_count_bounds range_size chunk_size Hpos Hlt)
    as (Hn & Hlo & Hhi).
  pose proof (partition_length begin range_size chunk_size Hpos Hlt) as Hlen.
  fold jobs in Hlen.
  split; [apply clamped_chunk_size_max|]. split; [|split; [exact Hlen|]].
  - rewrite run_in_parallel_unfold by assumption.
    destruct (range_size <=? chunk_size) eqn:Hle;
      [apply Z.leb_le in Hle; lia|].
    rewrite split_loop_partition by lia. reflexivity.
  - split; [|split].
    + intros k job Hk.
      apply partition_lookup in Hk as [Hk ->]; [|assumption..].
      unfold chunk_length, nth_chunk. simpl. split; [lia|]. split.
      * intros HS. assert ((Z.of_nat k + 1) * chunk_size < range_size) by nia.
        lia.
      * intros HS. assert (Z.of_nat k + 1 = chunk_count range_size chunk_size)
          as Hlast by lia.
        assert (range_size <= (Z.of_nat k + 1) * chunk_size)
          by (rewrite Hlast; lia).
        assert (Z.of_nat k * chunk_size < range_size) by nia.
        subst range_size. lia.
    + intros k job next Hk HSk.
      apply partition_lookup in Hk as [Hk ->]; [|assumption..].
      apply partition_lookup in HSk as [HSk ->]; [|assumption..].
      unfold nth_chunk. simpl.
      assert ((Z.of_nat k + 1) * chunk_size < range_size) by nia.
      lia.
    + apply partition_positions; lia.
Qed.

End run_in_parallel_facts.

(** * More on [run_in_parallel] *)

Section run_in_parallel_more.

Context (p : thread_pool chunk) (begin end_ : Z).
Context (schedule_factor min_chunk_size : Z).

Let range_size : Z := end_ - begin.
Let num_chunks : Z := wrap64 (schedule_factor * num_workers p).
Let chunk_size : Z := clamped_chunk_size range_size num_chunks min_chunk_size.
Let r : list event * exit :=
  run_in_parallel p begin end_ schedule_factor min_chunk_size.

Lemma enqueued_Enqueue (jobs : list chunk) :
  enqueued (map Enqueue jobs ++ [Wait]) = jobs /\
  invoked (map Enqueue jobs ++ [Wait]) = [].
Proof.
  unfold enqueued, invoked.
  induction jobs as [|job jobs [IH1 IH2]]; simpl; [done|].
  rewrite IH1, IH2. done.
Qed.

Lemma chunk_size_pos_of :
  is_uint64 min_chunk_size -> min_chunk_size <> 0 -> 0 < chunk_size.
Proof.
  intros Hu Hmcs. unfold chunk_size, num_chunks, range_size.
  rewrite (clamped_chunk_size_max p begin end_ schedule_factor min_chunk_size).
  unfold is_uint64 in Hu. lia.
Qed.

(** The plan of the call when the range is longer than the chunk size. *)
Lemma run_in_parallel_plan :
  schedule_factor <> 0 -> is_uint64 min_chunk_size -> min_chunk_size <> 0 ->
  0 < range_size <= PTRDIFF_MAX ->
  num_chunks <> 0 ->
  chunk_size < range_size ->
  r = (map Enqueue (partition begin range_size chunk_size) ++ [Wait], Returned).
Proof.
  intros Hsf Hu Hmcs Hrange Hnc Hlt. subst r.
  rewrite run_in_parallel_unfold by assumption.
  fold range_size num_chunks chunk_size.
  destruct (range_size <=? chunk_size) eqn:Hle;
    [apply Z.leb_le in Hle; lia|].
  pose proof (chunk_size_pos_of Hu Hmcs) as Hpos.
  rewrite split_loop_partition by lia.
  reflexivity.
Qed.

(** X12. How many jobs a call enqueues. When the quotient
    [range_size / num_chunks] is at least [min_chunk_size], the call enqueues
    at least [num_chunks] jobs and fewer than twice as many; when the chunk
    size was raised to [min_chunk_size], it enqueues at most [num_chunks]
    jobs. In both cases it enqueues at least two. *)
Theorem run_in_parallel_job_count :
  schedule_factor <> 0 -> is_uint64 min_chunk_size -> min_chunk_size <> 0 ->
  0 < range_size <= PTRDIFF_MAX ->
  num_chunks <> 0 ->
  chunk_size < range_size ->
  let count := Z.of_nat (length (enqueued (fst r))) in
  2 <= count /\
  (min_chunk_size <= range_size / num_chunks ->
   num_chunks <= count < 2 * num_chunks) /\
  (range_size / num_chunks < min_chunk_size -> count <= num_chunks).
Proof.
  intros Hsf Hu Hmcs Hrange Hnc Hlt count. subst count.
  rewrite run_in_parallel_plan by assumption. simpl fst.
  destruct (enqueued_Enqueue (partition begin range_size chunk_size)) as [-> _].
  pose proof (chunk_size_pos_of Hu Hmcs) as Hpos.
  rewrite partition_length by lia.
  destruct (chunk_count_bounds range_size chunk_size Hpos Hlt)
    as (Hn & Hlo & Hhi).
  assert (Hncpos : 0 < num_chunks).
  { subst num_chunks. unfold wrap64 in *.
    pose proof (Z.mod_pos_bound (schedule_factor * num_workers p) UINT64_MOD
                  ltac:(unfold UINT64_MOD; lia)). lia. }
  pose proof (Z.div_mod range_size num_chunks ltac:(lia)) as Hdm.
  pose proof (Z.mod_pos_bound range_size num_chunks Hncpos) as Hmod.
  pose proof (clamped_chunk_size_max p begin end_ schedule_factor
                min_chunk_size) as Hmax.
  fold range_size num_chunks chunk_size in Hmax.
  split; [lia|]. split.
  - intros Hq. assert (Hcs : chunk_size = range_size / num_chunks) by lia.
    rewrite <- Hcs in Hdm. split.
    + nia.
    + assert (2 <= num_chunks) by nia. nia.
  - intros Hq. assert (Hcs : chunk_size = min_chunk_size) by lia.
    assert (range_size < num_chunks * min_chunk_size) by nia.
    nia.
Qed.

(** X13. A chunk can be shorter than [min_chunk_size]: when the chunk size
    was raised to [min_chunk_size] and the range is not a multiple of it, the
    last job has the [range_size mod min_chunk_size] elements that are left,
    fewer than the minimum. *)
Theorem run_in_parallel_last_chunk_short :
  schedule_factor <> 0 -> is_uint64 min_chunk_size -> min_chunk_size <> 0 ->
  0 < range_size <= PTRDIFF_MAX ->
  num_chunks <> 0 ->
  chunk_size < range_size ->
  range_size / num_chunks < min_chunk_size ->
  range_size mod min_chunk_size <> 0 ->
  exists job,
    list.last (enqueued (fst r)) = Some job /\
    it_end job = end_ /\
    chunk_length job = range_size mod min_chunk_size /\
    chunk_length job < min_chunk_size.
Proof.
  intros Hsf Hu Hmcs Hrange Hnc Hlt Hq Hrem.
  rewrite run_in_parallel_plan by assumption. simpl fst.
  destruct (enqueued_Enqueue (partition begin range_size chunk_size)) as [-> _].
  pose proof (chunk_size_pos_of Hu Hmcs) as Hpos.
  pose proof (clamped_chunk_size_max p begin end_ schedule_factor
                min_chunk_size) as Hmax.
  fold range_size num_chunks chunk_size in Hmax.
  assert (Hcs : chunk_size = min_chunk_size) by lia.
  destruct (chunk_count_bounds range_size chunk_size Hpos Hlt)
    as (Hn & Hlo & Hhi).
  pose proof (partition_length begin range_size chunk_size Hpos Hlt) as Hlen.
  set (n := chunk_count range_size chunk_size) in *.
  exists (nth_chunk begin range_size chunk_size (n - 1)).
  pose proof (Z.div_mod range_size min_chunk_size Hmcs) as Hdm.
  pose proof (Z.mod_pos_bound range_size min_chunk_size
                ltac:(unfold is_uint64 in Hu; lia)) as Hmod.
  assert (Hdiv : range_size / min_chunk_size = n - 1).
  { rewrite Hcs in Hlo, Hhi. nia. }
  split; [|split; [|split]].
  - rewrite last_lookup.
    replace (Nat.pred (length (partition begin range_size chunk_size)))
      with (Z.to_nat (n - 1)) by lia.
    unfold partition. fold n. rewrite list_lookup_fmap.
    rewrite lookup_seqZ_lt by lia. simpl. f_equal. f_equal. lia.
  - unfold nth_chunk. simpl. subst range_size. lia.
  - unfold chunk_length, nth_chunk. simpl. rewrite Hcs in *. nia.
  - unfold chunk_length, nth_chunk. simpl. rewrite Hcs in *. nia.
Qed.


Lemma concat_map_Permutation {A B : Type} (f : A -> list B) (l1 l2 : list A) :
  l1 ≡ₚ l2 -> concat (map f l1) ≡ₚ concat (map f l2).
Proof.
  induction 1 as [|x l1 l2 _ IH|x y l|l1 l2 l3 _ IH1 _ IH2]; simpl.
  - done.
  - apply Permutation_app_head. exact IH.
  - rewrite !app_assoc. apply Permutation_app_tail. apply Permutation_app_comm.
  - etransitivity; eassumption.
Qed.

(** X17. What a return of the call means. Take a pool that is given the
    jobs of this call and no others, and a call that makes fewer than 2^32
    jobs. Whatever the schedule of the workers, if the [wait()] at the end of
    the call returns, [func] has been applied to every position of the range
    exactly once. *)
Theorem run_in_parallel_return_means_done ls s :
  schedule_factor <> 0 -> is_uint64 min_chunk_size -> min_chunk_size <> 0 ->
  0 < range_size <= PTRDIFF_MAX ->
  num_chunks <> 0 ->
  chunk_size < range_size ->
  chunk_count range_size chunk_size < UINT32_MOD ->
  run ls process_init = Ok s ->
  enqueued_by ls = enqueued (fst r) ->
  step L_wait s = Ok s ->
  invoked (fst r) = [] /\
  applied s ≡ₚ seqZ begin range_size.
Proof.
  intros Hsf Hu Hmcs Hrange Hnc Hlt Hcount Hrun Henq Hwait.
  rewrite run_in_parallel_plan in * by assumption. simpl fst in *.
  destruct (enqueued_Enqueue (partition begin range_size chunk_size))
    as [He Hi].
  rewrite He in Henq. split; [exact Hi|].
  pose proof (chunk_size_pos_of Hu Hmcs) as Hpos.
  pose proof (run_all_jobs ls process_init s pool_inv_init Hrun) as Hall.
  simpl in Hall. rewrite Henq in Hall.
  assert (Hout : outstanding (pool s) < UINT32_MOD).
  { pose proof (partition_length begin range_size chunk_size Hpos Hlt) as Hlen.
    apply Permutation_length in Hall. unfold all_jobs in Hall.
    rewrite !length_app in Hall.
    unfold outstanding, queue_length, mid_execution. lia. }
  pose proof (wait_returns_all_executed ls s Hrun Hout Hwait) as HP.
  rewrite Henq in HP. unfold applied.
  rewrite (concat_map_Permutation chunk_positions _ _ HP).
  rewrite partition_positions by lia. done.
Qed.

End run_in_parallel_more.

Section run_in_parallel_default_facts.

Context (p : thread_pool chunk) (begin end_ : Z).

Let range_size : Z := end_ - begin.

(** X15. With the default arguments a pool with one worker is never
    used: whatever the range, the calling thread applies [func] to every
    element itself, in order, and the call returns without a step on the
    pool. *)
Theorem run_in_parallel_default_single_worker :
  num_workers p = 1 ->
  0 <= range_size <= PTRDIFF_MAX ->
  run_in_parallel_default p begin end_
  = (map Invoke (seqZ begin range_size), Returned) /\
  caller_steps (fst (run_in_parallel_default p begin end_)) = [].
Proof.
  intros Hone Hrange.
  assert (H : run_in_parallel_default p begin end_
              = (map Invoke (seqZ begin range_size), Returned)).
  { unfold run_in_parallel_default, run_in_parallel. simpl.
    rewrite (range_size_wrap64 p begin end_ 1 1)
      by (unfold range_size in Hrange; lia).
    fold range_size.
    destruct (range_size =? 0) eqn:H0.
    - apply Z.eqb_eq in H0. rewrite H0. reflexivity.
    - apply Z.eqb_neq in H0. rewrite Hone. simpl.
      unfold clamped_chunk_size. rewrite Z.div_1_r.
      destruct (range_size <? 1) eqn:Hlt; [apply Z.ltb_lt in Hlt; lia|].
      rewrite Z.leb_refl.
      replace end_ with (begin + range_size) by (unfold range_size; lia).
      rewrite invoke_loop_seqZ by lia. reflexivity. }
  split; [exact H|]. rewrite H. simpl.
  destruct (caller_steps_Invoke (seqZ begin range_size)) as (H1 & _).
  exact H1.
Qed.

(** X16. With the default arguments and a pool of at least two workers,
    every range of at least two elements goes to the pool: the call enqueues
    the chunks of size [range_size / num_workers()], or of size 1 when there
    are more workers than elements, and waits. *)
Theorem run_in_parallel_default_uses_pool :
  2 <= num_workers p < UINT32_MOD ->
  2 <= range_size <= PTRDIFF_MAX ->
  run_in_parallel_default p begin end_
  = (map Enqueue
       (partition begin range_size (Z.max (range_size / num_workers p) 1))
     ++ [Wait], Returned).
Proof.
  intros Hnw Hrange.
  assert (Hnc : wrap64 (1 * num_workers p) = num_workers p).
  { rewrite Z.mul_1_l. apply wrap64_small.
    unfold UINT32_MOD, UINT64_MOD in *. lia. }
  pose proof (clamped_chunk_size_max p begin end_ 1 1) as Hmax.
  rewrite Hnc in Hmax. fold range_size in Hmax.
  assert (Hq : range_size / num_workers p < range_size).
  { apply Z.div_lt; lia. }
  unfold run_in_parallel_default.
  pose proof (run_in_parallel_unfold p begin end_ 1 1) as Hun.
  rewrite Hnc in Hun. fold range_size in Hun.
  rewrite Hun by lia. rewrite Hmax.
  destruct (range_size <=? Z.max (range_size / num_workers p) 1) eqn:Hle;
    [apply Z.leb_le in Hle; lia|].
  rewrite split_loop_partition by lia. reflexivity.
Qed.

End run_in_parallel_default_facts.

(** * Scenarios *)

(** C4, at the failing schedule. A pool is started with one worker and
    [terminate()] is called, directly or through [finish()]: the flag is
    cleared, the worker leaves its loop, the join returns, the array is freed
    and [_workers] is null, while [_num_workers] is still 1. A second
    [terminate()], or the destructor, then calls [_workers[0].join()] through
    the null pointer. *)
Theorem terminate_twice_null_dereference :
  exists s : process unit,
    run [L_start 1; L_terminate_flag; L_work_loop 0%nat; L_terminate_join]
        process_init = Ok s /\
    run [L_start 1; L_wait; L_terminate_flag; L_work_loop 0%nat;
         L_terminate_join] process_init = Ok s /\
    _workers (pool s) = None /\
    num_workers (pool s) = 1 /\
    run terminate s = Fault NullDereference /\
    run destructor s = Fault NullDereference.
Proof. eexists. repeat split; reflexivity. Qed.

(** C9, at the failing schedule. After the ten jobs have run, [wait()] has
    returned and [terminate()] has completed, [num_workers()] returns 4. *)
Theorem num_workers_after_terminate :
  exists s : process unit,
    run ten_jobs_then_terminate process_init = Ok s /\
    length (executed s) = 10%nat /\
    _num_jobs (pool s) = 0 /\
    _workers (pool s) = None /\
    _running (pool s) = false /\
    num_workers (pool s) = 4.
Proof.
  exists (Process (ThreadPool 4 0 None [] false) (replicate 10 tt) true).
  split; [vm_compute; reflexivity | repeat split].
Qed.

(** C2, at a failing schedule. The pool has two workers and the range two
    elements, so the call enqueues the chunks [0, 1) and [1, 2) and waits.
    Each worker takes one chunk. Worker 0 ends its chunk first: [func] has
    been applied to position 0 only, [_num_jobs] is 1 and the caller is still
    blocked in [wait()]. Back at its wait, worker 0 finds the predicate true
    and the queue empty, and the assertion of line 194 stops the process:
    the call never returns. On a pool without workers the call divides by
    zero before it applies [func] to anything. *)
Theorem run_in_parallel_aborts :
  run_in_parallel (start 2 thread_pool_ctor) 0 2 1 1
  = ([Enqueue (Chunk 0 1); Enqueue (Chunk 1 2); Wait], Returned) /\
  (exists s : process chunk,
     run [L_start 2; L_enqueue_job (Chunk 0 1); L_enqueue_job (Chunk 1 2);
          L_work_loop 0%nat; L_work_loop 1%nat; L_work_loop 0%nat]
         process_init = Ok s /\
     applied s = [0] /\
     jobs_in_execution (pool s) = [Chunk 1 2] /\
     step L_wait s = Blocked /\
     step (L_work_loop 0%nat) s = Fault AssertionFailed) /\
  run_in_parallel thread_pool_ctor 0 1 1 1 = ([], Aborted DivisionByZero).
Proof.
  split; [reflexivity|]. split; [|reflexivity].
  eexists. repeat split; reflexivity.
Qed.

(** ** The theorems at concrete calls *)

Lemma run_in_parallel_asserts_witness :
  run_in_parallel (start 4 thread_pool_ctor) 0 10 0 1
  = ([], Aborted AssertionFailed) /\
  run_in_parallel (start 4 thread_pool_ctor) 0 10 1 0
  = ([], Aborted AssertionFailed).
Proof.
  split.
  - apply (run_in_parallel_asserts (start 4 thread_pool_ctor) 0 10 0 1).
    left. reflexivity.
  - apply (run_in_parallel_asserts (start 4 thread_pool_ctor) 0 10 1 0).
    right. reflexivity.
Defined.

Lemma run_in_parallel_zero_workers_witness :
  run_in_parallel thread_pool_ctor 0 10 1 1 = ([], Aborted DivisionByZero) /\
  run_in_parallel (start 0 thread_pool_ctor) 0 10 1 1
  = ([], Aborted DivisionByZero).
Proof.
  split.
  - apply (run_in_parallel_zero_workers thread_pool_ctor 0 10 1 1).
    + reflexivity.
    + lia.
    + lia.
    + unfold PTRDIFF_MAX. lia.
  - apply (run_in_parallel_zero_workers (start 0 thread_pool_ctor) 0 10 1 1).
    + reflexivity.
    + lia.
    + lia.
    + unfold PTRDIFF_MAX. lia.
Defined.

Lemma run_in_parallel_sequential_witness :
  run_in_parallel (start 4 thread_pool_ctor) 5 8 1 7
  = (map Invoke [5; 6; 7], Returned).
Proof.
  destruct (run_in_parallel_sequential (start 4 thread_pool_ctor) 5 8 1 7)
    as (H & _).
  - lia.
  - lia.
  - unfold PTRDIFF_MAX. lia.
  - vm_compute. discriminate.
  - vm_compute. discriminate.
  - exact H.
Defined.

Lemma run_in_parallel_partitions_witness :
  run_in_parallel (start 4 thread_pool_ctor) 0 10 1 1
  = (map Enqueue [Chunk 0 2; Chunk 2 4; Chunk 4 6; Chunk 6 8; Chunk 8 10]
     ++ [Wait], Returned).
Proof.
  destruct (run_in_parallel_partitions (start 4 thread_pool_ctor) 0 10 1 1)
    as (_ & H & _).
  - lia.
  - unfold is_uint64, UINT64_MOD. lia.
  - lia.
  - unfold PTRDIFF_MAX. lia.
  - vm_compute. discriminate.
  - vm_compute. reflexivity.
  - exact H.
Defined.

(** ** The further theorems at concrete schedules and calls *)

Lemma jobs_dequeued_in_fifo_order_witness :
  let ls : list (label nat) :=
    [L_start 2; L_enqueue_job 1%nat; L_enqueue_job 2%nat; L_enqueue_job 3%nat;
     L_work_loop 0%nat; L_work_loop 1%nat] in
  exists s,
    run ls process_init = Ok s /\
    _job_queue (pool s) = [3%nat] /\
    exists taken,
      enqueued_by ls = taken ++ _job_queue (pool s) /\
      taken ≡ₚ executed s ++ jobs_in_execution (pool s).
Proof.
  intros ls.
  exists (Process (ThreadPool 2 3 (Some [Executing 1%nat; Executing 2%nat])
                              [3%nat] true) [] true).
  split; [reflexivity|]. split; [reflexivity|].
  apply (jobs_dequeued_in_fifo_order ls). reflexivity.
Defined.

Lemma num_workers_fixed_by_start_witness :
  num_workers
    (pool (Process (ThreadPool 4 0 None [] false) (replicate 10 tt) true)) = 4.
Proof.
  apply (num_workers_fixed_by_start 4 (tail ten_jobs_then_terminate)
           process_init).
  vm_compute. reflexivity.
Defined.

Lemma single_worker_runs_jobs_in_order_witness :
  let ls : list (label nat) :=
    [L_enqueue_job 1%nat; L_start 1; L_enqueue_job 2%nat; L_work_loop 0%nat;
     L_work_loop 0%nat; L_enqueue_job 3%nat; L_work_loop 0%nat] in
  let s := Process (ThreadPool 1 2 (Some [Executing 2%nat]) [3%nat] true)
                   [1%nat] true in
  run ls process_init = Ok s /\
  executed s ++ jobs_in_execution (pool s) ++ _job_queue (pool s)
  = [1; 2; 3]%nat.
Proof.
  intros ls s. split; [reflexivity|].
  apply (single_worker_runs_jobs_in_order ls s); reflexivity.
Defined.

Lemma zero_workers_run_nothing_witness :
  let ls : list (label nat) :=
    [L_start 0; L_enqueue_job 1%nat; L_enqueue_job 2%nat] in
  let s := Process (ThreadPool 0 2 (Some []) [1; 2]%nat true) [] true in
  run ls process_init = Ok s /\
  executed s = [] /\
  _job_queue (pool s) = [1; 2]%nat /\
  step L_wait s = Blocked.
Proof.
  intros ls s. split; [reflexivity|].
  destruct (zero_workers_run_nothing ls s) as (H1 & H2 & H3);
    [reflexivity | reflexivity |].
  split; [exact H1|]. split; [exact H2|].
  apply H3. vm_compute. split; reflexivity.
Defined.

Lemma wait_returns_when_all_jobs_ended_witness :
  let ls : list (label nat) :=
    [L_start 1; L_enqueue_job 1%nat; L_enqueue_job 2%nat; L_work_loop 0%nat;
     L_work_loop 0%nat; L_work_loop 0%nat; L_work_loop 0%nat] in
  let s := Process (ThreadPool 1 0 (Some [Waiting]) [] true) [1; 2]%nat true in
  run ls process_init = Ok s /\
  step L_wait s = Ok s /\
  executed s ≡ₚ [1; 2]%nat.
Proof.
  intros ls s. split; [reflexivity|]. split; [reflexivity|].
  destruct (wait_returns_when_all_jobs_ended ls s) as (_ & _ & H).
  - reflexivity.
  - vm_compute. reflexivity.
  - reflexivity.
  - exact H.
Defined.

Lemma finish_runs_every_job_witness :
  let ls : list (label nat) :=
    [L_start 1; L_enqueue_job 1%nat; L_enqueue_job 2%nat; L_work_loop 0%nat;
     L_work_loop 0%nat; L_work_loop 0%nat; L_work_loop 0%nat] in
  let s := Process (ThreadPool 1 0 (Some [Waiting]) [] true) [1; 2]%nat true in
  let s' := Process (ThreadPool 1 0 None [] false) [1; 2]%nat true in
  run ls process_init = Ok s /\
  run (L_wait :: L_terminate_flag :: [L_work_loop 0%nat; L_terminate_join]) s
  = Ok s' /\
  executed s' ≡ₚ [1; 2]%nat.
Proof.
  intros ls s s'. split; [reflexivity|]. split; [reflexivity|].
  destruct (finish_runs_every_job ls s
              [L_work_loop 0%nat; L_terminate_join] s') as (_ & H & _).
  - reflexivity.
  - vm_compute. reflexivity.
  - repeat constructor.
  - reflexivity.
  - exact H.
Defined.

Lemma worker_fails_only_beside_a_running_job_witness :
  let s := Process (ThreadPool 2 1 (Some [Executing tt; Waiting]) [] true)
                   [] true in
  reachable s /\
  step (L_work_loop 1%nat) s = Fault AssertionFailed /\
  exists ws j job,
    _workers (pool s) = Some ws /\ ws !! 1%nat = Some Waiting /\
    j <> 1%nat /\ ws !! j = Some (Executing job).
Proof.
  intros s.
  assert (Hs : reachable s).
  { exists [L_start 2; L_enqueue_job tt; L_work_loop 0%nat]. reflexivity. }
  split; [exact Hs|]. split; [reflexivity|].
  destruct (worker_fails_only_beside_a_running_job 1%nat s AssertionFailed Hs)
    as (_ & _ & _ & H); [reflexivity | exact H].
Defined.

Lemma single_worker_never_fails_witness :
  let s := Process (ThreadPool 1 1 (Some [Executing tt]) [] true) [] true in
  reachable s /\ step (L_work_loop 0%nat) s <> Fault AssertionFailed.
Proof.
  intros s.
  assert (Hs : reachable s).
  { exists [L_start 1; L_enqueue_job tt; L_work_loop 0%nat]. reflexivity. }
  split; [exact Hs|].
  apply (single_worker_never_fails 0%nat s AssertionFailed Hs). reflexivity.
Defined.

Lemma terminate_fails_only_when_repeated_witness :
  let s : process unit :=
    Process (ThreadPool 1 0 None [] false) [] true in
  reachable s /\
  step L_terminate_join s = Fault NullDereference /\
  _workers (pool s) = None /\ _num_workers (pool s) <> 0.
Proof.
  intros s.
  assert (Hs : reachable s).
  { exists [L_start 1; L_terminate_flag; L_work_loop 0%nat; L_terminate_join].
    reflexivity. }
  split; [exact Hs|]. split; [reflexivity|].
  destruct (terminate_fails_only_when_repeated s NullDereference Hs)
    as (_ & H1 & H2 & _); [reflexivity|].
  split; [exact H1 | exact H2].
Defined.

Lemma terminate_idempotent_without_workers_witness :
  let s := Process (ThreadPool 0 2 (Some []) [1; 2]%nat true) [] true in
  let s' := Process (ThreadPool 0 2 None [1; 2]%nat false) [] true in
  run terminate s = Ok s' /\ run terminate s' = Ok s' /\
  run destructor s' = Ok s'.
Proof.
  intros s s'.
  apply (terminate_idempotent_without_workers s). reflexivity.
Defined.

Lemma terminate_completes_witness :
  let s := Process (ThreadPool 2 2 (Some [Waiting; Executing 1%nat]) [2%nat]
                               true) [] true in
  reachable s /\
  exists s',
    run [L_terminate_flag; L_work_loop 0%nat; L_work_loop 1%nat;
         L_work_loop 1%nat; L_terminate_join] s = Ok s' /\
    _workers (pool s') = None /\
    _running (pool s') = false /\
    _job_queue (pool s') = [2%nat] /\
    executed s' = [1%nat].
Proof.
  intros s.
  assert (Hs : reachable s).
  { exists [L_start 2; L_enqueue_job 1%nat; L_enqueue_job 2%nat;
            L_work_loop 1%nat]. reflexivity. }
  split; [exact Hs|].
  apply (terminate_completes s Hs). discriminate.
Defined.

Lemma run_in_parallel_job_count_witness :
  let r := run_in_parallel (start 4 thread_pool_ctor) 0 10 1 1 in
  4 <= Z.of_nat (length (enqueued (fst r))) < 2 * 4.
Proof.
  intros r.
  destruct (run_in_parallel_job_count (start 4 thread_pool_ctor) 0 10 1 1)
    as (_ & H & _).
  - lia.
  - unfold is_uint64, UINT64_MOD. lia.
  - lia.
  - unfold PTRDIFF_MAX. lia.
  - vm_compute. discriminate.
  - vm_compute. reflexivity.
  - apply H. vm_compute. discriminate.
Defined.

Lemma run_in_parallel_last_chunk_short_witness :
  let r := run_in_parallel (start 4 thread_pool_ctor) 0 10 1 3 in
  exists job,
    list.last (enqueued (fst r)) = Some job /\
    it_end job = 10 /\
    chunk_length job = 1 /\
    chunk_length job < 3.
Proof.
  intros r.
  apply (run_in_parallel_last_chunk_short (start 4 thread_pool_ctor) 0 10 1 3).
  - lia.
  - unfold is_uint64, UINT64_MOD. lia.
  - lia.
  - unfold PTRDIFF_MAX. lia.
  - vm_compute. discriminate.
  - vm_compute. reflexivity.
  - vm_compute. reflexivity.
  - vm_compute. discriminate.
Defined.


Lemma run_in_parallel_default_single_worker_witness :
  run_in_parallel_default (start 1 thread_pool_ctor) 0 5
  = (map Invoke [0; 1; 2; 3; 4], Returned).
Proof.
  destruct (run_in_parallel_default_single_worker
              (start 1 thread_pool_ctor) 0 5) as (H & _).
  - reflexivity.
  - unfold PTRDIFF_MAX. lia.
  - exact H.
Defined.

Lemma run_in_parallel_default_uses_pool_witness :
  run_in_parallel_default (start 4 thread_pool_ctor) 0 10
  = (map Enqueue [Chunk 0 2; Chunk 2 4; Chunk 4 6; Chunk 6 8; Chunk 8 10]
     ++ [Wait], Returned).
Proof.
  apply (run_in_parallel_default_uses_pool (start 4 thread_pool_ctor) 0 10).
  - unfold num_workers, UINT32_MOD. simpl. lia.
  - unfold PTRDIFF_MAX. lia.
Defined.

Lemma run_in_parallel_return_means_done_witness :
  let ls : list (label chunk) :=
    [L_start 1; L_enqueue_job (Chunk 0 1); L_enqueue_job (Chunk 1 2);
     L_work_loop 0%nat; L_work_loop 0%nat; L_work_loop 0%nat;
     L_work_loop 0%nat] in
  let s := Process (ThreadPool 1 0 (Some [Waiting]) [] true)
                   [Chunk 0 1; Chunk 1 2] true in
  run ls process_init = Ok s /\
  step L_wait s = Ok s /\
  applied s ≡ₚ [0; 1].
Proof.
  intros ls s. split; [reflexivity|]. split; [reflexivity|].
  destruct (run_in_parallel_return_means_done
              (start 1 thread_pool_ctor) 0 2 2 1 ls s) as (_ & H).
  - lia.
  - unfold is_uint64, UINT64_MOD. lia.
  - lia.
  - unfold PTRDIFF_MAX. lia.
  - vm_compute. discriminate.
  - vm_compute. reflexivity.
  - vm_compute. reflexivity.
  - reflexivity.
  - reflexivity.
  - reflexivity.
  - exact H.
Defined.

(** ** Calls evaluated *)

Example rip_10_4 :
  run_in_parallel (start 4 thread_pool_ctor) 100 110 1 1
  = (map Enqueue [Chunk 100 102; Chunk 102 104; Chunk 104 106; Chunk 106 108;
                  Chunk 108 110] ++ [Wait], Returned).
Proof. reflexivity. Qed.

Example rip_10_3 :
  run_in_parallel (start 3 thread_pool_ctor) 0 10 1 1
  = (map Enqueue (partition 0 10 3) ++ [Wait], Returned).
Proof. reflexivity. Qed.

Example rip_small :
  run_in_parallel (start 4 thread_pool_ctor) 5 8 1 7
  = (map Invoke [5; 6; 7], Returned).
Proof. reflexivity. Qed.

Example rip_zero_workers :
  run_in_parallel thread_pool_ctor 0 1 1 1 = ([], Aborted DivisionByZero).
Proof. reflexivity. Qed.
